(** * PageRank: transition model, sampling estimator and iterative solver

    A shallow embedding of [pagerank.py].  Numbers are exact rationals
    ([Q]): Python floats are read in exact arithmetic, so every equation
    between ranks or probabilities below holds of the source up to the
    rounding of binary64; the note at [sample_pagerank] says where
    rounding could decide which branch the source takes.  Dictionaries
    are
    association lists in insertion order, sets are duplicate-free lists,
    and every Python exception the code can raise is a constructor of
    [exn], threaded through a small error monad. *)

From Stdlib Require Import List String Bool Arith ZArith QArith Qabs Qround.
From Stdlib Require Import Lia Lqa Permutation Morphisms Setoid.
From Stdlib Require Import Sorted Orders Mergesort.
From Equations Require Import Equations.
Import ListNotations.

Local Open Scope Q_scope.

(** ** Exceptions *)

Inductive exn : Type :=
| KeyError
| IndexError
| ZeroDivisionError
| ValueError
| OSError.

Inductive result (A : Type) : Type :=
| Ok (a : A)
| Raise (e : exn).

Arguments Ok {A} a.
Arguments Raise {A} e.

Definition bind {A B : Type} (m : result A) (f : A -> result B) : result B :=
  match m with
  | Ok a => f a
  | Raise e => Raise e
  end.

Notation "x <- m ;; k" := (bind m (fun x => k))
  (at level 61, m at next level, right associativity).

(** ** Pages, sets and dictionaries *)

Definition page := string.

(** [p in s] for a set [s]. *)
Definition mem (p : page) (s : list page) : bool :=
  existsb (String.eqb p) s.

(** [not s]: the set is empty. *)
Definition is_empty (s : list page) : bool :=
  match s with
  | [] => true
  | _ :: _ => false
  end.

(** [len(x)] as a number. *)
Definition len {A : Type} (l : list A) : Q :=
  inject_Z (Z.of_nat (List.length l)).

(** A dictionary keyed by pages, in insertion order. *)
Abbreviation dict V := (list (page * V)).

Section Dict.
Variable V : Type.

Definition keys (d : dict V) : list page := map fst d.

Fixpoint dict_get (d : dict V) (k : page) : option V :=
  match d with
  | [] => None
  | (k', v) :: t => if String.eqb k' k then Some v else dict_get t k
  end.

(** [d[k]] *)
Definition getitem (d : dict V) (k : page) : result V :=
  match dict_get d k with
  | Some v => Ok v
  | None => Raise KeyError
  end.

(** [d[k] = v]: an existing key keeps its position, a new key goes last. *)
Fixpoint setitem (d : dict V) (k : page) (v : V) : dict V :=
  match d with
  | [] => [(k, v)]
  | (k', v') :: t =>
      if String.eqb k' k then (k', v) :: t else (k', v') :: setitem t k v
  end.

(** [d.update(other)] *)
Definition update (d other : dict V) : dict V :=
  fold_left (fun acc kv => setitem acc (fst kv) (snd kv)) other d.

(** [{p: f(p) for p in xs}], built on top of [acc]. *)
Fixpoint comprehension (f : page -> result V) (xs : list page) (acc : dict V)
  : result (dict V) :=
  match xs with
  | [] => Ok acc
  | p :: t => v <- f p ;; comprehension f t (setitem acc p v)
  end.
End Dict.

Arguments keys {V} d.
Arguments dict_get {V} d k.
Arguments getitem {V} d k.
Arguments setitem {V} d k v.
Arguments update {V} d other.
Arguments comprehension {V} f xs acc.

(** Python's true division. *)
Definition pydiv (x y : Q) : result Q :=
  if Qeq_bool y 0 then Raise ZeroDivisionError else Ok (x / y).

(** ** The corpus

    A dict has each key once and a set each element once; [Corpus] packs
    the association list with that representation invariant. *)

Fixpoint nodupb (l : list page) : bool :=
  match l with
  | [] => true
  | x :: t => negb (mem x t) && nodupb t
  end.

Definition well_formed (c : dict (list page)) : bool :=
  nodupb (keys c) && forallb (fun e => nodupb (snd e)) c.

Record Corpus : Type := mkCorpus {
  entries :> dict (list page);
  entries_ok : well_formed entries = true
}.

(** Closure invariant of the loader: every linked page is a key. *)
Definition closed (c : dict (list page)) : Prop :=
  forall i li p, In (i, li) c -> In p li -> In p (keys c).

Definition closedb (c : dict (list page)) : bool :=
  forallb (fun e => forallb (fun p => mem p (keys c)) (snd e)) c.

(** ** transition_model *)

(** [for p in corpus: probability_distribution[p] = v] *)
Definition assign_all (ks : list page) (v : Q) (pd : dict Q) : dict Q :=
  fold_left (fun pd p => setitem pd p v) ks pd.

(** [for p in corpus[page]: probability_distribution[p] += v] *)
Fixpoint add_linked (ps : list page) (v : Q) (pd : dict Q)
  : result (dict Q) :=
  match ps with
  | [] => Ok pd
  | p :: t => x <- getitem pd p ;; add_linked t v (setitem pd p (x + v))
  end.

Definition transition_model (corpus : dict (list page)) (pg : page)
    (damping_factor : Q) : result (dict Q) :=
  links <- getitem corpus pg ;;
  if is_empty links then
    d <- pydiv 1 (len corpus) ;;
    Ok (assign_all (keys corpus) d [])
  else
    randomly_among_linked <- pydiv damping_factor (len links) ;;
    randomly_among_all <- pydiv (1 - damping_factor) (len corpus) ;;
    add_linked links randomly_among_linked
               (assign_all (keys corpus) randomly_among_all []).

(** ** The random source

    The sampler draws from Python's [random] module.  A run is determined
    by the values the source hands out: [first_draw] is the integer
    behind the single call of [random.choice] (reduced modulo the length
    of the sequence), [unit_draw k] is the value of [random()] behind the
    [k]-th call of [random.choices]. *)

Record draws : Type := mkDraws {
  first_draw : nat;
  unit_draw : nat -> Q
}.

(** [xs[i]] *)
Definition item (xs : list page) (i : nat) : result page :=
  match nth_error xs i with
  | Some x => Ok x
  | None => Raise IndexError
  end.

(** [random.choice(xs)] *)
Definition choice (xs : list page) (r : nat) : result page :=
  match xs with
  | [] => Raise IndexError
  | _ :: _ => item xs (r mod List.length xs)
  end.

(** [itertools.accumulate(ws)]: the running sums. *)
Fixpoint accumulate_from (acc : Q) (ws : list Q) : list Q :=
  match ws with
  | [] => []
  | w :: t => (acc + w) :: accumulate_from (acc + w) t
  end.

Definition accumulate (ws : list Q) : list Q :=
  match ws with
  | [] => []
  | w :: t => w :: accumulate_from w t
  end.

(** [bisect.bisect_right(a, x, lo, hi)]; every index it reads is below
    [hi], which [choices] keeps below [len(a)]. *)
Equations? bisect (a : list Q) (x : Q) (lo hi : nat) : nat
  by wf (hi - lo)%nat lt :=
  bisect a x lo hi with lt_dec lo hi => {
    | left _ =>
        if negb (Qle_bool (nth ((lo + hi) / 2)%nat a 0) x)
        then bisect a x lo ((lo + hi) / 2)%nat
        else bisect a x (S ((lo + hi) / 2)%nat) hi
    | right _ => lo }.
Proof.
  all: change (fst (Nat.divmod (lo + hi) 1 0 1)) with ((lo + hi) / 2)%nat.
  all: pose proof (Nat.div_mod_eq (lo + hi) 2) as Hdiv.
  all: pose proof (Nat.mod_upper_bound (lo + hi) 2) as Hmod.
  all: lia.
Qed.

(** [random.choices(population, weights, k=1).pop()] *)
Definition choices (population : list page) (weights : list Q) (u : Q)
  : result page :=
  let cum_weights := accumulate weights in
  let n := List.length population in
  if negb (Nat.eqb (List.length cum_weights) n) then Raise ValueError
  else
    match cum_weights with
    | [] => Raise IndexError
    | _ :: _ =>
        let total := last cum_weights 0 in
        if Qle_bool total 0 then Raise ValueError
        else item population (bisect cum_weights (u * total) 0 (n - 1))
    end.

(** ** sample_pagerank *)

(** The [while count:] loop; its state is the counter table, the current
    page and the number of values of [random()] consumed so far. *)
Fixpoint walk (count : nat) (corpus : dict (list page)) (damping_factor : Q)
    (rnd : nat -> Q) (k : nat) (pg : page) (PageRank : dict Q)
  : result (dict Q * page * nat) :=
  match count with
  | O => Ok (PageRank, pg, k)
  | S count' =>
      c <- getitem PageRank pg ;;
      let PageRank := setitem PageRank pg (c + 1) in
      tm <- transition_model corpus pg damping_factor ;;
      let population := map fst tm in
      let weights := map snd tm in
      pg' <- choices population weights (rnd k) ;;
      walk count' corpus damping_factor rnd (S k) pg' PageRank
  end.

(** The weights handed to [random.choices] are the values of
    [transition_model].  In exact arithmetic they sum to 1 whatever the
    damping factor is, so the check [total <= 0] of [random.choices]
    never fires here.  For a damping factor in [0,1] every weight is
    non-negative and every partial sum lies in [0,1], so the binary64
    total of the source differs from 1 by rounding only and the source
    takes the same branch.  Outside [0,1] weights of both signs cancel:
    from a magnitude of 2^53 on, the binary64 total can be 0 and the
    source raises [ValueError] where this reading goes on. *)
Definition sample_pagerank (corpus : dict (list page)) (damping_factor : Q)
    (n : nat) (rnd : draws) : result (dict Q) :=
  let PageRank := assign_all (keys corpus) 0 [] in
  pg <- choice (keys corpus) (first_draw rnd) ;;
  st <- walk n corpus damping_factor (unit_draw rnd) 0 pg PageRank ;;
  let PageRank := fst (fst st) in
  fresh <- comprehension
             (fun key => c <- getitem PageRank key ;;
                         pydiv c (inject_Z (Z.of_nat n)))
             (keys PageRank) [] ;;
  Ok (update PageRank fresh).

(** ** iterate_pagerank *)

(** The inner function [formula]; it reads the table bound to [PageRank]
    at the time of the call. *)
Fixpoint summation_loop (corpus : dict (list page)) (PageRank : dict Q)
    (pg : page) (ks : list page) (summation : Q) : result Q :=
  match ks with
  | [] => Ok summation
  | i :: t =>
      links <- getitem corpus i ;;
      if negb (is_empty links) then
        if mem pg links then
          r <- getitem PageRank i ;;
          x <- pydiv r (len links) ;;
          summation_loop corpus PageRank pg t (summation + x)
        else summation_loop corpus PageRank pg t summation
      else
        r <- getitem PageRank i ;;
        x <- pydiv r (len corpus) ;;
        summation_loop corpus PageRank pg t (summation + x)
  end.

Definition formula (corpus : dict (list page)) (damping_factor : Q)
    (PageRank : dict Q) (pg : page) : result Q :=
  first_condition <- pydiv (1 - damping_factor) (len corpus) ;;
  summation <- summation_loop corpus PageRank pg (keys corpus) 0 ;;
  let second_condition := damping_factor * summation in
  Ok (first_condition + second_condition).

(** [{page: formula(page) for page in corpus}] *)
Definition sweep (corpus : dict (list page)) (damping_factor : Q)
    (PageRank : dict Q) : result (dict Q) :=
  comprehension (formula corpus damping_factor PageRank) (keys corpus) [].

(** [any(abs(PageRank[p] - new_PageRank[p]) >= 0.001 for p in corpus)] *)
Fixpoint any_change (PageRank new_PageRank : dict Q) (ps : list page)
  : result bool :=
  match ps with
  | [] => Ok false
  | p :: t =>
      x <- getitem PageRank p ;;
      y <- getitem new_PageRank p ;;
      if Qle_bool (1 # 1000) (Qabs (x - y)) then Ok true
      else any_change PageRank new_PageRank t
  end.

(** The loop state when the loop is left. *)
Record loop_state : Type := mkState {
  PageRank_of : dict Q;
  new_PageRank_of : dict Q
}.

(** The [while repeat:] loop, entered with [new_PageRank]; [None] means
    that [fuel] sweeps did not reach the exit. *)
Fixpoint iterate_loop (fuel : nat) (corpus : dict (list page))
    (damping_factor : Q) (new_PageRank : dict Q)
  : option (result loop_state) :=
  match fuel with
  | O => None
  | S fuel' =>
      let PageRank := new_PageRank in
      match sweep corpus damping_factor PageRank with
      | Raise e => Some (Raise e)
      | Ok fresh =>
          let new_PageRank := update new_PageRank fresh in
          match any_change PageRank new_PageRank (keys corpus) with
          | Raise e => Some (Raise e)
          | Ok true => iterate_loop fuel' corpus damping_factor new_PageRank
          | Ok false => Some (Ok (mkState PageRank new_PageRank))
          end
      end
  end.

(** The comprehension of a sweep with its pages evaluated in the order
    [order] instead of the order of the corpus, and the loop built on
    it; they serve to state that the order of evaluation plays no
    part. *)
Definition sweep_in (order : list page) (corpus : dict (list page))
    (damping_factor : Q) (PageRank : dict Q) : result (dict Q) :=
  comprehension (formula corpus damping_factor PageRank) order [].

Fixpoint iterate_loop_in (order : list page) (fuel : nat)
    (corpus : dict (list page)) (damping_factor : Q) (new_PageRank : dict Q)
  : option (result loop_state) :=
  match fuel with
  | O => None
  | S fuel' =>
      let PageRank := new_PageRank in
      match sweep_in order corpus damping_factor PageRank with
      | Raise e => Some (Raise e)
      | Ok fresh =>
          let new_PageRank := update new_PageRank fresh in
          match any_change PageRank new_PageRank (keys corpus) with
          | Raise e => Some (Raise e)
          | Ok true =>
              iterate_loop_in order fuel' corpus damping_factor new_PageRank
          | Ok false => Some (Ok (mkState PageRank new_PageRank))
          end
      end
  end.

(** The statements before the loop. *)
Definition iterate_init (corpus : dict (list page)) (damping_factor : Q)
  : result (dict Q) :=
  let N := len corpus in
  uniform <- comprehension (fun _ => pydiv 1 N) (keys corpus) [] ;;
  let PageRank := update [] uniform in
  fresh <- sweep corpus damping_factor PageRank ;;
  Ok (update [] fresh).

Definition iterate_run (fuel : nat) (corpus : dict (list page))
    (damping_factor : Q) : option (result loop_state) :=
  match iterate_init corpus damping_factor with
  | Raise e => Some (Raise e)
  | Ok new_PageRank => iterate_loop fuel corpus damping_factor new_PageRank
  end.

Definition iterate_pagerank (fuel : nat) (corpus : dict (list page))
    (damping_factor : Q) : option (result (dict Q)) :=
  match iterate_run fuel corpus damping_factor with
  | None => None
  | Some (Raise e) => Some (Raise e)
  | Some (Ok st) => Some (Ok (PageRank_of st))
  end.

(** ** Notions used to state the properties *)

(** A table written as a function over a list of keys. *)
Definition tabulate {V : Type} (g : page -> V) (ks : list page) : dict V :=
  map (fun p => (p, g p)) ks.

Definition qsum (l : list Q) : Q := fold_right Qplus 0 l.

(** The sum of [f] over the pages [ks]. *)
Definition sum_over (ks : list page) (f : page -> Q) : Q := qsum (map f ks).

(** The sum of the values of a table. *)
Definition total (t : dict Q) : Q := qsum (map snd t).

(** The value a table holds for a page ([0] for a missing key). *)
Definition rank (r : dict Q) (p : page) : Q :=
  match dict_get r p with
  | Some v => v
  | None => 0
  end.

(** The number [transition_model] stores for page [p] when the current
    page links to [links]. *)
Definition transition_value (corpus : dict (list page)) (links : list page)
    (d : Q) (p : page) : Q :=
  if is_empty links then 1 / len corpus
  else if mem p links then (1 - d) / len corpus + d / len links
  else (1 - d) / len corpus.

(** The share of the rank of a page with links [li] that the update
    equation passes on to page [pg]. *)
Definition share (corpus : dict (list page)) (pg : page) (li : list page) : Q :=
  if is_empty li then 1 / len corpus
  else if mem pg li then 1 / len li
  else 0.

Definition weight (corpus : dict (list page)) (pg i : page) : Q :=
  match dict_get corpus i with
  | Some li => share corpus pg li
  | None => 0
  end.

(** The right-hand side of the update equation for page [pg]. *)
Definition next_rank (corpus : dict (list page)) (d : Q) (r : dict Q)
    (pg : page) : Q :=
  (1 - d) / len corpus +
  d * sum_over (keys corpus) (fun i => rank r i * weight corpus pg i).

(** The sum over the pages [ks] of the absolute rank differences. *)
Definition distance (ks : list page) (r s : dict Q) : Q :=
  sum_over ks (fun p => Qabs (rank r p - rank s p)).

(** Some page's rank differs by 0.001 or more. *)
Definition changed (ks : list page) (r s : dict Q) : bool :=
  existsb (fun p => Qle_bool (1 # 1000) (Qabs (rank r p - rank s p))) ks.

Fixpoint qpow (d : Q) (m : nat) : Q :=
  match m with
  | O => 1
  | S m' => d * qpow d m'
  end.

(** ** Corpora used as concrete inputs *)

Section Examples.
Local Open Scope string_scope.

(** [{A: {}, B: {A}}]: [A] is dangling. *)
Definition dangling_corpus : Corpus :=
  mkCorpus [("A", []); ("B", ["A"])] eq_refl.

(** [{A: {B}, B: {A}}] *)
Definition pair_corpus : Corpus :=
  mkCorpus [("A", ["B"]); ("B", ["A"])] eq_refl.

(** [{X: {Y, Z}, Y: {X}}]: the link to [Z] leaves the corpus. *)
Definition open_corpus3 : Corpus :=
  mkCorpus [("X", ["Y"; "Z"]); ("Y", ["X"])] eq_refl.

(** [{A: {B}, B: {C}, C: {B}}] *)
Definition chain_corpus : Corpus :=
  mkCorpus [("A", ["B"]); ("B", ["C"]); ("C", ["B"])] eq_refl.

(** [{A: {}}] *)
Definition single_corpus : Corpus := mkCorpus [("A", [])] eq_refl.

(** The empty corpus [{}]. *)
Definition empty_corpus : Corpus := mkCorpus [] eq_refl.

(** A source whose first integer is [1] and whose every [random()] is
    [1/3]. *)
Definition fixed_draws : draws := mkDraws 1 (fun _ => 1 # 3).

Definition page_A : page := "A".
Definition page_B : page := "B".
Definition page_C : page := "C".
Definition page_Z : page := "Z".
End Examples.

(** On [chain_corpus] with damping 1: page [A] holds nothing and [B]
    and [C] hold 2/3 and 1/3 in one order or the other. *)
Definition oscillating (r : dict Q) : Prop :=
  keys r = keys chain_corpus /\
  rank r page_A == 0 /\
  ((rank r page_B == 2 # 3 /\ rank r page_C == 1 # 3) \/
   (rank r page_B == 1 # 3 /\ rank r page_C == 2 # 3)).

(** ** Further notions *)

(** The corpus in which every page without links links to every page,
    itself included. *)
Definition saturate (corpus : dict (list page)) : dict (list page) :=
  map (fun e => (fst e, if is_empty (snd e) then keys corpus else snd e))
      corpus.

(** The probability [transition_model] gives to the move from page [i]
    to page [p] ([0] when it raises). *)
Definition transition_prob (corpus : dict (list page)) (d : Q) (i p : page)
  : Q :=
  match transition_model corpus i d with
  | Ok t => rank t p
  | Raise _ => 0
  end.

(** ** crawl

    The directory is read through [os.listdir], [open] and [f.read()].
    It is given here as the list of its entries in the order
    [os.listdir] yields them, each with what opening and reading the
    entry gives: [Ok] with the text, or [Raise] with the exception (an
    entry that is a directory or may not be read raises an [OSError],
    one that cannot be decoded a [ValueError]).  The regular-expression
    search [re.findall] for the anchor pattern of the source is a
    parameter: the list of the [href] values found in a text. *)

(** [s.endswith(suffix)] *)
Definition endswith (s suffix : string) : bool :=
  let n := String.length s in
  let m := String.length suffix in
  (m <=? n)%nat && String.eqb (substring (n - m) m s) suffix.

Definition html_suffix : string := ".html"%string.

(** [set(xs)] *)
Fixpoint to_set (xs : list page) : list page :=
  match xs with
  | [] => []
  | x :: t => if mem x t then to_set t else x :: to_set t
  end.

(** [s - {x}] *)
Definition set_minus (s : list page) (x : page) : list page :=
  filter (fun y => negb (String.eqb y x)) s.

Section Crawl.
Variable findall : string -> list string.

(** The first loop: every entry whose name ends in [.html] is opened and
    read, and gets one entry in [pages]; the other entries are not
    opened. *)
Fixpoint read_pages (listing : list (string * result string))
    (pages : dict (list page)) : result (dict (list page)) :=
  match listing with
  | [] => Ok pages
  | (filename, opened) :: t =>
      if negb (endswith filename html_suffix) then read_pages t pages
      else
        contents <- opened ;;
        let links := findall contents in
        read_pages t (setitem pages filename
                              (set_minus (to_set links) filename))
  end.

(** The second loop: only links to pages of the corpus are kept. *)
Fixpoint keep_known (names : list page) (pages : dict (list page))
  : result (dict (list page)) :=
  match names with
  | [] => Ok pages
  | filename :: t =>
      links <- getitem pages filename ;;
      keep_known t
        (setitem pages filename
                 (filter (fun link => mem link (keys pages)) links))
  end.

Definition crawl (listing : list (string * result string))
  : result (dict (list page)) :=
  pages <- read_pages listing [] ;;
  keep_known (keys pages) pages.
End Crawl.

(** Every entry whose name ends in [.html] can be opened and read. *)
Definition readable (listing : list (string * result string)) : Prop :=
  forall name opened,
    In (name, opened) listing -> endswith name html_suffix = true ->
    exists contents, opened = Ok contents.

(** Directories used as concrete inputs: two pages that link to each
    other and a file that is not a page; and a page next to a
    sub-directory whose name ends in [.html].  The search result stands
    for the [href] values of each text. *)
Section Directory.
Local Open Scope string_scope.

Definition file_1 : page := "1.html".
Definition file_2 : page := "2.html".

Definition hrefs (contents : string) : list string :=
  if String.eqb contents "one" then ["2.html"; "1.html"; "notes.txt"; "2.html"]
  else if String.eqb contents "two" then ["1.html"; "3.html"]
  else [].

Definition small_directory : list (string * result string) :=
  [("1.html", Ok "one"); ("notes.txt", Ok "two"); ("2.html", Ok "two")].

Definition directory_with_subdirectory : list (string * result string) :=
  [("1.html", Ok "one"); ("d.html", Raise OSError)].
End Directory.

(** ** main

    [sys.argv] and the random source are arguments, and so is the file
    system: [listdir directory] is the listing [os.listdir] returns for
    a directory that can be listed, with what opening and reading each
    entry gives.  What is
    printed is returned line by line; a rank line keeps the number that
    the source renders with four decimals. *)

Definition DAMPING : Q := 85 # 100.
Definition SAMPLES : nat := Z.to_nat 10000.

Inductive line : Type :=
| Text (s : string)
| Rank (pg : page) (value : Q).

(** How a run of [main] ends; [Sweeping] means that the sweeps allowed
    did not end the loop of [iterate_pagerank]. *)
Inductive status : Type :=
| Finished
| Exited (message : string)
| Raised (e : exn)
| Sweeping.

(** The order of [sorted] on page names. *)
Module PageOrder <: TotalLeBool.
Definition t := page.
Definition leb (x y : page) : bool := String.leb x y.
Lemma leb_total : forall x y, leb x y = true \/ leb y x = true.
Proof. exact String.leb_total. Qed.
End PageOrder.

Module PageSort := Sort PageOrder.

(** [sorted(ranks)] *)
Definition sorted (ranks : dict Q) : list page := PageSort.sort (keys ranks).

(** [for page in sorted(ranks): print(...)]; every page is a key. *)
Definition print_ranks (ranks : dict Q) : list line :=
  map (fun pg => Rank pg (rank ranks pg)) (sorted ranks).

Section Main.
Local Open Scope string_scope.

Definition usage : string := "Usage: python pagerank.py corpus".
Definition sampling_header : line :=
  Text "PageRank Results from Sampling (n = 10000)".
Definition iteration_header : line := Text "PageRank Results from Iteration".

Definition main (fuel : nat) (argv : list string)
    (listdir : string -> list (string * result string))
    (findall : string -> list string) (rnd : draws) : list line * status :=
  match argv with
  | [_; directory] =>
      match crawl findall (listdir directory) with
      | Raise e => ([], Raised e)
      | Ok corpus =>
          match sample_pagerank corpus DAMPING SAMPLES rnd with
          | Raise e => ([], Raised e)
          | Ok ranks =>
              let printed := sampling_header :: print_ranks ranks in
              match iterate_pagerank fuel corpus DAMPING with
              | None => (printed, Sweeping)
              | Some (Raise e) => (printed, Raised e)
              | Some (Ok ranks) =>
                  ((printed ++ iteration_header :: print_ranks ranks)%list,
                   Finished)
              end
          end
      end
  | _ => ([], Exited usage)
  end.
End Main.

(** * Properties *)

(** ** Sets and dictionaries *)

Lemma mem_In (p : page) (s : list page) : mem p s = true <-> In p s.
Proof.
  unfold mem. rewrite existsb_exists. split.
  - intros [x [Hin Heq]]. apply String.eqb_eq in Heq. now subst.
  - intro Hin. exists p. split; [assumption | apply String.eqb_refl].
Qed.

Lemma mem_false (p : page) (s : list page) : mem p s = false <-> ~ In p s.
Proof.
  rewrite <- mem_In. destruct (mem p s); split; congruence.
Qed.

Lemma nodupb_NoDup (l : list page) : nodupb l = true <-> NoDup l.
Proof.
  induction l as [|x t IH]; simpl.
  - split; [constructor | reflexivity].
  - rewrite andb_true_iff, negb_true_iff, mem_false, IH. split.
    + intros [Hx Ht]. now constructor.
    + intro H. inversion H; subst. now split.
Qed.

Lemma Corpus_NoDup_keys (c : Corpus) : NoDup (keys c).
Proof.
  destruct c as [e He]. simpl. unfold well_formed in He.
  apply andb_true_iff in He. now apply nodupb_NoDup.
Qed.

Lemma Corpus_NoDup_links (c : Corpus) (i : page) (li : list page) :
  In (i, li) c -> NoDup li.
Proof.
  destruct c as [e He]. simpl. unfold well_formed in He.
  apply andb_true_iff in He. destruct He as [_ He].
  rewrite forallb_forall in He. intro Hin.
  apply nodupb_NoDup. exact (He _ Hin).
Qed.

Lemma closedb_closed (c : dict (list page)) : closedb c = true -> closed c.
Proof.
  unfold closedb, closed. rewrite forallb_forall. intros H i li p Hin Hp.
  specialize (H _ Hin). simpl in H. rewrite forallb_forall in H.
  apply mem_In. now apply H.
Qed.

Section DictFacts.
Context {V : Type}.
Implicit Types (d : dict V) (k : page) (v : V) (g h : page -> V).

Lemma dict_get_In d k v : dict_get d k = Some v -> In (k, v) d.
Proof.
  induction d as [|[k' v'] t IH]; simpl; [discriminate|].
  destruct (String.eqb k' k) eqn:E.
  - apply String.eqb_eq in E. intro H. injection H as ->. left. now subst.
  - intro H. right. now apply IH.
Qed.

Lemma dict_get_keys d k v : dict_get d k = Some v -> In k (keys d).
Proof.
  intro H. apply dict_get_In in H. unfold keys.
  change k with (fst (k, v)). now apply in_map.
Qed.

Lemma dict_get_None d k : dict_get d k = None <-> ~ In k (keys d).
Proof.
  induction d as [|[k' v'] t IH]; simpl.
  - split; [auto | reflexivity].
  - destruct (String.eqb k' k) eqn:E.
    + apply String.eqb_eq in E. split; [discriminate | intro H; tauto].
    + apply String.eqb_neq in E. rewrite IH. tauto.
Qed.

Lemma dict_get_some d k : In k (keys d) -> exists v, dict_get d k = Some v.
Proof.
  intro H. destruct (dict_get d k) eqn:E; [eauto|].
  apply dict_get_None in E. contradiction.
Qed.

Lemma getitem_Ok d k v : getitem d k = Ok v <-> dict_get d k = Some v.
Proof.
  unfold getitem. destruct (dict_get d k); split; congruence.
Qed.

Lemma getitem_missing d k : ~ In k (keys d) -> getitem d k = Raise KeyError.
Proof.
  intro H. apply dict_get_None in H. unfold getitem. now rewrite H.
Qed.

Lemma setitem_get_same d k v : dict_get (setitem d k v) k = Some v.
Proof.
  induction d as [|[k' v'] t IH]; simpl.
  - now rewrite String.eqb_refl.
  - destruct (String.eqb k' k) eqn:E; simpl; now rewrite E.
Qed.

Lemma setitem_get_other d k k' v :
  k <> k' -> dict_get (setitem d k v) k' = dict_get d k'.
Proof.
  intro Hne. induction d as [|[k0 v0] t IH]; simpl.
  - apply String.eqb_neq in Hne. now rewrite Hne.
  - destruct (String.eqb k0 k) eqn:E; simpl.
    + apply String.eqb_eq in E. subst k0.
      apply String.eqb_neq in Hne. now rewrite Hne.
    + now rewrite IH.
Qed.

Lemma setitem_keys_in d k v : In k (keys d) -> keys (setitem d k v) = keys d.
Proof.
  induction d as [|[k0 v0] t IH]; simpl; [tauto|].
  intros [-> | Hin].
  - now rewrite String.eqb_refl.
  - destruct (String.eqb k0 k); simpl; [reflexivity|].
    f_equal. now apply IH.
Qed.

Lemma setitem_fresh d k v : ~ In k (keys d) -> setitem d k v = d ++ [(k, v)].
Proof.
  induction d as [|[k0 v0] t IH]; simpl; [reflexivity|].
  intro H. destruct (String.eqb k0 k) eqn:E.
  - apply String.eqb_eq in E. tauto.
  - f_equal. apply IH. tauto.
Qed.

Lemma setitem_middle (d1 d2 : dict V) k v0 v :
  ~ In k (keys d1) ->
  setitem (d1 ++ (k, v0) :: d2) k v = d1 ++ (k, v) :: d2.
Proof.
  induction d1 as [|[k0 w0] t IH]; simpl.
  - now rewrite String.eqb_refl.
  - intro H. destruct (String.eqb k0 k) eqn:E.
    + apply String.eqb_eq in E. tauto.
    + f_equal. apply IH. tauto.
Qed.

Lemma keys_tabulate g ks : keys (tabulate g ks) = ks.
Proof.
  unfold keys, tabulate. rewrite map_map. simpl. apply map_id.
Qed.

Lemma dict_get_tabulate g ks k :
  In k ks -> dict_get (tabulate g ks) k = Some (g k).
Proof.
  induction ks as [|k0 t IH]; simpl; [tauto|].
  destruct (String.eqb k0 k) eqn:E.
  - apply String.eqb_eq in E. now subst.
  - apply String.eqb_neq in E. intros [H | H]; [contradiction | now apply IH].
Qed.

Lemma dict_get_tabulate_None g ks k :
  ~ In k ks -> dict_get (tabulate g ks) k = None.
Proof.
  intro H. apply dict_get_None. now rewrite keys_tabulate.
Qed.

Lemma tabulate_ext g h ks :
  (forall k, In k ks -> g k = h k) -> tabulate g ks = tabulate h ks.
Proof.
  intro H. apply map_ext_in. intros k Hk. now rewrite H.
Qed.

Lemma setitem_tabulate g ks k v :
  NoDup ks -> In k ks ->
  setitem (tabulate g ks) k v =
  tabulate (fun q => if String.eqb q k then v else g q) ks.
Proof.
  induction ks as [|k0 t IH]; simpl; [tauto|].
  intros Hnd Hin. inversion Hnd as [|? ? Hk0 Ht]; subst.
  destruct (String.eqb k0 k) eqn:E.
  - apply String.eqb_eq in E. subst k0. f_equal.
    apply map_ext_in. intros q Hq.
    destruct (String.eqb q k) eqn:E2; [|reflexivity].
    apply String.eqb_eq in E2. subst. contradiction.
  - f_equal. apply IH; [assumption|].
    destruct Hin as [H | H]; [|assumption].
    apply String.eqb_neq in E. contradiction.
Qed.

Lemma update_fresh (other d : dict V) :
  NoDup (keys d ++ keys other) -> update d other = d ++ other.
Proof.
  unfold update. revert d.
  induction other as [|[k v] t IH]; intros d Hnd; simpl.
  - now rewrite app_nil_r.
  - simpl in Hnd. rewrite setitem_fresh.
    + rewrite IH.
      * now rewrite <- app_assoc.
      * unfold keys in *. rewrite map_app. simpl. now rewrite <- app_assoc.
    + apply NoDup_remove_2 in Hnd. intro H. apply Hnd.
      apply in_or_app. now left.
Qed.

Lemma update_overwrite (other d1 d2 : dict V) :
  keys d2 = keys other -> NoDup (keys d1 ++ keys other) ->
  update (d1 ++ d2) other = d1 ++ other.
Proof.
  unfold update. revert d1 d2.
  induction other as [|[k v] t IH]; intros d1 d2 Hk Hnd; simpl.
  - destruct d2; [reflexivity | discriminate].
  - destruct d2 as [|[k0 v0] d2]; [discriminate|].
    simpl in Hk. injection Hk as -> Hk. simpl in Hnd.
    rewrite setitem_middle.
    + change (d1 ++ (k, v) :: d2) with (d1 ++ [(k, v)] ++ d2).
      rewrite app_assoc. rewrite IH; [now rewrite <- app_assoc | assumption |].
      unfold keys in *. rewrite map_app. simpl. now rewrite <- app_assoc.
    + apply NoDup_remove_2 in Hnd. intro H. apply Hnd.
      apply in_or_app. now left.
Qed.

Lemma update_same_keys (d other : dict V) :
  keys d = keys other -> NoDup (keys other) -> update d other = other.
Proof.
  intros Hk Hnd. apply (update_overwrite other [] d); assumption.
Qed.

Lemma update_empty (other : dict V) :
  NoDup (keys other) -> update [] other = other.
Proof.
  intro Hnd. now rewrite update_fresh.
Qed.

Lemma comprehension_tabulate (f : page -> result V) (g : page -> V) ks :
  NoDup ks -> (forall k, In k ks -> f k = Ok (g k)) ->
  comprehension f ks [] = Ok (tabulate g ks).
Proof.
  intros Hnd Hf.
  assert (G : forall acc, NoDup (keys acc ++ ks) ->
              comprehension f ks acc = Ok (acc ++ tabulate g ks)).
  { clear Hnd. induction ks as [|k t IH]; intros acc Hacc; simpl.
    - now rewrite app_nil_r.
    - rewrite (Hf k) by now left. simpl. rewrite setitem_fresh.
      + rewrite IH.
        * now rewrite <- app_assoc.
        * intros q Hq. apply Hf. now right.
        * unfold keys in *. rewrite map_app. simpl. now rewrite <- app_assoc.
      + apply NoDup_remove_2 in Hacc. intro H. apply Hacc.
        apply in_or_app. now left. }
  apply (G []). assumption.
Qed.

Lemma comprehension_Ok (f : page -> result V) ks acc r :
  comprehension f ks acc = Ok r ->
  forall k, In k ks -> exists v, f k = Ok v.
Proof.
  revert acc. induction ks as [|k0 t IH]; intros acc H k Hin; [destruct Hin|].
  simpl in H. destruct (f k0) as [v0|e] eqn:E; [|discriminate]. simpl in H.
  destruct Hin as [<- | Hin]; [eauto|]. eapply IH; eassumption.
Qed.

Lemma comprehension_Raise (f : page -> result V) ks acc e :
  comprehension f ks acc = Raise e -> exists k, In k ks /\ f k = Raise e.
Proof.
  revert acc. induction ks as [|k0 t IH]; intros acc H; [discriminate|].
  simpl in H. destruct (f k0) as [v0|e0] eqn:E; simpl in H.
  - destruct (IH _ H) as [k [Hin Hk]]. exists k. split; [now right | assumption].
  - injection H as ->. exists k0. split; [now left | assumption].
Qed.
End DictFacts.

(** ** Sums *)

Lemma len_cons {A : Type} (x : A) (l : list A) : len (x :: l) == len l + 1.
Proof.
  unfold len. simpl List.length. rewrite Nat2Z.inj_succ, <- Z.add_1_r.
  now rewrite inject_Z_plus.
Qed.

Lemma len_nonneg {A : Type} (l : list A) : 0 <= len l.
Proof.
  unfold len. change 0 with (inject_Z 0). rewrite <- Zle_Qle. lia.
Qed.

Lemma len_pos {A : Type} (l : list A) : l <> [] -> 0 < len l.
Proof.
  destruct l as [|x t]; [congruence|]. intros _.
  rewrite len_cons. pose proof (len_nonneg t). lra.
Qed.

Lemma len_le {A B : Type} (l : list A) (l' : list B) :
  (List.length l <= List.length l')%nat -> len l <= len l'.
Proof.
  intro H. unfold len. rewrite <- Zle_Qle. lia.
Qed.

(** Base cases: a sum or a length over the empty list. *)
Ltac sum_nil :=
  unfold sum_over, qsum, len;
  cbn [map fold_right List.length Z.of_nat filter];
  change (inject_Z 0) with 0.

Lemma sum_over_cons (k : page) (ks : list page) (f : page -> Q) :
  sum_over (k :: ks) f = f k + sum_over ks f.
Proof. reflexivity. Qed.

Lemma sum_over_ext (ks : list page) (f g : page -> Q) :
  (forall p, In p ks -> f p == g p) -> sum_over ks f == sum_over ks g.
Proof.
  induction ks as [|k t IH]; intro H; [reflexivity|].
  rewrite !sum_over_cons. rewrite (H k) by now left.
  rewrite IH; [reflexivity|]. intros p Hp. apply H. now right.
Qed.

Lemma sum_over_le (ks : list page) (f g : page -> Q) :
  (forall p, In p ks -> f p <= g p) -> sum_over ks f <= sum_over ks g.
Proof.
  induction ks as [|k t IH]; intro H; [apply Qle_refl|].
  rewrite !sum_over_cons. apply Qplus_le_compat.
  - apply H. now left.
  - apply IH. intros p Hp. apply H. now right.
Qed.

Lemma sum_over_zero (ks : list page) : sum_over ks (fun _ => 0) == 0.
Proof.
  induction ks as [|k t IH]; [reflexivity|].
  rewrite sum_over_cons, IH. lra.
Qed.

Lemma sum_over_nonneg (ks : list page) (f : page -> Q) :
  (forall p, In p ks -> 0 <= f p) -> 0 <= sum_over ks f.
Proof.
  intro H. rewrite <- (sum_over_zero ks). now apply sum_over_le.
Qed.

Lemma sum_over_const (ks : list page) (c : Q) :
  sum_over ks (fun _ => c) == len ks * c.
Proof.
  induction ks as [|k t IH].
  - sum_nil. lra.
  - rewrite sum_over_cons, IH, len_cons. lra.
Qed.

Lemma sum_over_plus (ks : list page) (f g : page -> Q) :
  sum_over ks (fun p => f p + g p) == sum_over ks f + sum_over ks g.
Proof.
  induction ks as [|k t IH]; [sum_nil; lra|].
  rewrite !sum_over_cons, IH. lra.
Qed.

Lemma sum_over_scale (ks : list page) (a : Q) (f : page -> Q) :
  sum_over ks (fun p => a * f p) == a * sum_over ks f.
Proof.
  induction ks as [|k t IH]; [sum_nil; lra|].
  rewrite !sum_over_cons, IH. lra.
Qed.

Lemma sum_over_indicator (ks : list page) (b : page -> bool) (c : Q) :
  sum_over ks (fun p => if b p then c else 0) == len (filter b ks) * c.
Proof.
  induction ks as [|k t IH]; [sum_nil; lra|].
  rewrite sum_over_cons, IH. simpl filter.
  destruct (b k); [rewrite len_cons|]; lra.
Qed.

Lemma sum_over_swap (ks js : list page) (f : page -> page -> Q) :
  sum_over ks (fun p => sum_over js (fun i => f i p)) ==
  sum_over js (fun i => sum_over ks (fun p => f i p)).
Proof.
  induction ks as [|k t IH].
  - symmetry. rewrite <- (sum_over_zero js). apply sum_over_ext.
    intros i _. reflexivity.
  - rewrite sum_over_cons, IH.
    rewrite <- sum_over_plus. apply sum_over_ext. intros i _.
    now rewrite sum_over_cons.
Qed.

Lemma Qabs_sum_over (ks : list page) (f : page -> Q) :
  Qabs (sum_over ks f) <= sum_over ks (fun p => Qabs (f p)).
Proof.
  induction ks as [|k t IH]; [sum_nil; apply Qle_refl|].
  rewrite !sum_over_cons.
  eapply Qle_trans; [apply Qabs_triangle|].
  apply Qplus_le_compat; [apply Qle_refl | exact IH].
Qed.

Lemma sum_over_term (ks : list page) (f : page -> Q) (k : page) :
  (forall p, In p ks -> 0 <= f p) -> In k ks -> f k <= sum_over ks f.
Proof.
  induction ks as [|k0 t IH]; intros Hf Hin; [destruct Hin|].
  rewrite sum_over_cons.
  assert (0 <= f k0) by (apply Hf; now left).
  assert (0 <= sum_over t f)
    by (apply sum_over_nonneg; intros p Hp; apply Hf; now right).
  destruct Hin as [-> | Hin]; [lra|].
  assert (f k <= sum_over t f)
    by (apply IH; [intros p Hp; apply Hf; now right | assumption]).
  lra.
Qed.

Lemma total_tabulate (g : page -> Q) (ks : list page) :
  total (tabulate g ks) = sum_over ks g.
Proof.
  unfold total, tabulate, sum_over. now rewrite map_map.
Qed.

Lemma rank_tabulate (g : page -> Q) (ks : list page) (k : page) :
  In k ks -> rank (tabulate g ks) k = g k.
Proof.
  intro H. unfold rank. now rewrite dict_get_tabulate.
Qed.

(** A table over duplicate-free keys is the tabulation of its lookups. *)
Lemma tabulate_rank (r : dict Q) : NoDup (keys r) -> r = tabulate (rank r) (keys r).
Proof.
  induction r as [|[k v] t IH]; intro Hnd; [reflexivity|].
  inversion Hnd as [|? ? Hk Ht]; subst. unfold tabulate. simpl. f_equal.
  - unfold rank. simpl. now rewrite String.eqb_refl.
  - rewrite (IH Ht) at 1. apply map_ext_in. intros q Hq.
    unfold rank. simpl. destruct (String.eqb k q) eqn:E; [|reflexivity].
    apply String.eqb_eq in E. subst. contradiction.
Qed.

Lemma total_sum_over (r : dict Q) :
  NoDup (keys r) -> total r = sum_over (keys r) (rank r).
Proof.
  intro Hnd. rewrite (tabulate_rank r Hnd) at 1. apply total_tabulate.
Qed.

(** Counting the members of a set among duplicate-free keys. *)
Lemma filter_mem_length (ks li : list page) :
  NoDup ks -> NoDup li ->
  (List.length (filter (fun p => mem p li) ks) <= List.length li)%nat.
Proof.
  intros Hks Hli. apply NoDup_incl_length.
  - now apply NoDup_filter.
  - intros p Hp. apply filter_In in Hp. now apply mem_In.
Qed.

Lemma filter_mem_length_closed (ks li : list page) :
  NoDup ks -> NoDup li -> incl li ks ->
  List.length (filter (fun p => mem p li) ks) = List.length li.
Proof.
  intros Hks Hli Hincl. apply Permutation_length.
  apply NoDup_Permutation; [now apply NoDup_filter | assumption |].
  intro p. rewrite filter_In, mem_In. split; [tauto|].
  intro H. split; [now apply Hincl | assumption].
Qed.

(** ** transition_model *)

Lemma pydiv_Ok (x y : Q) : ~ y == 0 -> pydiv x y = Ok (x / y).
Proof.
  intro H. unfold pydiv. destruct (Qeq_bool y 0) eqn:E; [|reflexivity].
  apply Qeq_bool_eq in E. contradiction.
Qed.

Lemma pydiv_len {A : Type} (x : Q) (l : list A) :
  l <> [] -> pydiv x (len l) = Ok (x / len l).
Proof.
  intro H. apply pydiv_Ok. pose proof (len_pos l H). lra.
Qed.

Lemma is_empty_false (s : list page) : is_empty s = false <-> s <> [].
Proof.
  destruct s; simpl; split; congruence.
Qed.

Lemma assign_all_tabulate (ks : list page) (v : Q) :
  NoDup ks -> assign_all ks v [] = tabulate (fun _ => v) ks.
Proof.
  intro Hnd. unfold assign_all.
  assert (G : forall acc, NoDup (keys acc ++ ks) ->
              fold_left (fun pd p => setitem pd p v) ks acc =
              acc ++ tabulate (fun _ => v) ks).
  { clear Hnd. induction ks as [|k t IH]; intros acc Hacc; simpl.
    - now rewrite app_nil_r.
    - rewrite setitem_fresh.
      + rewrite IH; [now rewrite <- app_assoc|].
        unfold keys in *. rewrite map_app. simpl. now rewrite <- app_assoc.
      + apply NoDup_remove_2 in Hacc. intro H. apply Hacc.
        apply in_or_app. now left. }
  apply (G []). assumption.
Qed.

Lemma add_linked_tabulate (ps ks : list page) (v : Q) (h : page -> Q) :
  NoDup ks -> NoDup ps -> incl ps ks ->
  add_linked ps v (tabulate h ks) =
  Ok (tabulate (fun p => if mem p ps then h p + v else h p) ks).
Proof.
  intro Hks. revert h.
  induction ps as [|p t IH]; intros h Hps Hincl; simpl.
  - reflexivity.
  - inversion Hps as [|? ? Hp Ht]; subst.
    assert (Hin : In p ks) by (apply Hincl; now left).
    unfold getitem. rewrite dict_get_tabulate by assumption. simpl.
    rewrite setitem_tabulate by assumption.
    rewrite IH; [|assumption | intros q Hq; apply Hincl; now right].
    f_equal. apply tabulate_ext. intros q Hq.
    change (mem q (p :: t)) with (String.eqb q p || mem q t)%bool.
    destruct (String.eqb q p) eqn:E; simpl.
    + apply String.eqb_eq in E. subst q.
      apply mem_false in Hp. now rewrite Hp.
    + reflexivity.
Qed.

(** On a corpus whose links from [pg] are keys, [transition_model]
    returns the table of [transition_value]. *)
Lemma transition_model_Ok (c : Corpus) (pg : page) (links : list page) (d : Q) :
  dict_get c pg = Some links -> incl links (keys c) ->
  transition_model c pg d = Ok (tabulate (transition_value c links d) (keys c)).
Proof.
  intros Hget Hincl. unfold transition_model, getitem. rewrite Hget. simpl.
  assert (Hne : entries c <> []) by (destruct (entries c); [discriminate | congruence]).
  pose proof (Corpus_NoDup_keys c) as Hks.
  destruct (is_empty links) eqn:E.
  - rewrite pydiv_len by assumption. simpl.
    rewrite assign_all_tabulate by assumption. f_equal.
    apply tabulate_ext. intros q _. unfold transition_value. now rewrite E.
  - apply is_empty_false in E.
    rewrite pydiv_len by assumption. simpl.
    rewrite pydiv_len by assumption. simpl.
    rewrite assign_all_tabulate by assumption.
    rewrite add_linked_tabulate; try assumption.
    + f_equal. apply tabulate_ext. intros q _. unfold transition_value.
      apply is_empty_false in E. now rewrite E.
    + eapply Corpus_NoDup_links. apply dict_get_In. eassumption.
Qed.

Lemma closed_links (c : dict (list page)) (pg : page) (links : list page) :
  closed c -> dict_get c pg = Some links -> incl links (keys c).
Proof.
  intros Hcl Hget p Hp. eapply Hcl; [apply dict_get_In|]; eassumption.
Qed.

Lemma transition_value_nonneg (c : dict (list page)) (links : list page)
    (d : Q) (p : page) :
  0 <= d <= 1 -> 0 <= transition_value c links d p.
Proof.
  intros [Hd0 Hd1]. unfold transition_value.
  assert (Hdiv : forall x y, 0 <= x -> 0 <= y -> 0 <= x / y).
  { intros x y Hx Hy. unfold Qdiv. apply Qmult_le_0_compat; [assumption|].
    now apply Qinv_le_0_compat. }
  pose proof (len_nonneg c). pose proof (len_nonneg links).
  destruct (is_empty links); [apply Hdiv; lra|].
  assert (0 <= (1 - d) / len c) by (apply Hdiv; lra).
  assert (0 <= d / len links) by (apply Hdiv; lra).
  destruct (mem p links); lra.
Qed.

Lemma transition_value_sum (c : Corpus) (pg : page) (links : list page) (d : Q) :
  dict_get c pg = Some links -> incl links (keys c) ->
  sum_over (keys c) (transition_value c links d) == 1.
Proof.
  intros Hget Hincl.
  assert (Hne : entries c <> []) by (destruct (entries c); [discriminate | congruence]).
  pose proof (len_pos _ Hne) as HN.
  assert (Hlen : len (keys c) = len (entries c))
    by (unfold len, keys; now rewrite length_map).
  pose proof (Corpus_NoDup_keys c) as Hks.
  destruct links as [|l0 lt] eqn:El.
  - rewrite (sum_over_ext _ _ (fun _ => 1 / len c)) by (intros; reflexivity).
    rewrite sum_over_const, Hlen. field. lra.
  - rewrite <- El in *.
    assert (Hl : links <> []) by (rewrite El; discriminate).
    pose proof (len_pos _ Hl) as HL.
    rewrite (sum_over_ext _ _
      (fun p => (1 - d) / len c + (if mem p links then d / len links else 0))).
    + rewrite sum_over_plus, sum_over_const, sum_over_indicator, Hlen.
      assert (HNL : NoDup links)
        by (eapply Corpus_NoDup_links; apply dict_get_In; eassumption).
      assert (Hcount : len (filter (fun p => mem p links) (keys c)) = len links)
        by (unfold len; now rewrite filter_mem_length_closed).
      rewrite Hcount. field. lra.
    + intros p _. unfold transition_value.
      apply is_empty_false in Hl. rewrite Hl.
      destruct (mem p links); lra.
Qed.

(** C2: on a corpus (every linked page is a key, the invariant corpora
    are specified with), for a page that is a key and a damping factor
    in [0,1], [transition_model] returns a table over the pages of the
    corpus.  When the page has no
    links every page is mapped to exactly [1/|corpus|]; otherwise a page
    outside the links is mapped to exactly [(1-damping)/|corpus|] and a
    linked page to exactly [(1-damping)/|corpus| + damping/|links|]. *)
Theorem transition_model_values
    (c : Corpus) (pg : page) (links : list page) (d : Q) :
  closed c -> dict_get c pg = Some links -> 0 <= d <= 1 ->
  exists dist,
    transition_model c pg d = Ok dist /\
    keys dist = keys c /\
    (links = [] ->
     forall p, In p (keys c) -> dict_get dist p = Some (1 / len c)) /\
    (links <> [] ->
     forall p, In p (keys c) ->
       (~ In p links -> dict_get dist p = Some ((1 - d) / len c)) /\
       (In p links ->
        dict_get dist p = Some ((1 - d) / len c + d / len links))).
Proof.
  intros Hcl Hget _.
  exists (tabulate (transition_value c links d) (keys c)).
  split; [apply transition_model_Ok; [assumption | now apply (closed_links c pg)]|].
  split; [apply keys_tabulate|].
  split.
  - intros -> p Hp. now rewrite dict_get_tabulate.
  - intros Hne p Hp. apply is_empty_false in Hne.
    rewrite dict_get_tabulate by assumption. unfold transition_value.
    rewrite Hne. split; intro H.
    + apply mem_false in H. now rewrite H.
    + apply mem_In in H. now rewrite H.
Qed.

Lemma transition_model_values_witness :
  exists dist,
    transition_model dangling_corpus page_B (1 # 2) = Ok dist /\
    keys dist = keys dangling_corpus /\
    ([page_A] = [] ->
     forall p, In p (keys dangling_corpus) ->
       dict_get dist p = Some (1 / len dangling_corpus)) /\
    ([page_A] <> [] ->
     forall p, In p (keys dangling_corpus) ->
       (~ In p [page_A] ->
        dict_get dist p = Some ((1 - (1 # 2)) / len dangling_corpus)) /\
       (In p [page_A] ->
        dict_get dist p =
        Some ((1 - (1 # 2)) / len dangling_corpus + (1 # 2) / len [page_A]))).
Proof.
  apply (transition_model_values dangling_corpus page_B [page_A] (1 # 2)).
  - apply closedb_closed. reflexivity.
  - reflexivity.
  - split; discriminate.
Defined.

(** C9: on a corpus (every linked page is a key, the invariant corpora
    are specified with), for a page that is a key and a damping factor
    in [0,1], the values of the table returned by [transition_model] are
    non-negative and sum to 1 (so they are within 1e-9 of 1).  A corpus
    with a key is not empty. *)
Theorem transition_model_distribution
    (c : Corpus) (pg : page) (links : list page) (d : Q) :
  closed c -> dict_get c pg = Some links -> 0 <= d <= 1 ->
  exists dist,
    transition_model c pg d = Ok dist /\
    (forall p v, dict_get dist p = Some v -> 0 <= v) /\
    total dist == 1 /\
    Qabs (total dist - 1) <= 1 # 1000000000.
Proof.
  intros Hcl Hget Hd.
  pose proof (closed_links c pg links Hcl Hget) as Hincl.
  exists (tabulate (transition_value c links d) (keys c)).
  split; [now apply transition_model_Ok|].
  assert (Hsum : total (tabulate (transition_value c links d) (keys c)) == 1)
    by (rewrite total_tabulate; now apply (transition_value_sum c pg)).
  split; [|split; [exact Hsum|]].
  - intros p v Hv.
    assert (Hp : In p (keys c))
      by (apply dict_get_keys in Hv; now rewrite keys_tabulate in Hv).
    rewrite dict_get_tabulate in Hv by assumption. injection Hv as <-.
    now apply transition_value_nonneg.
  - rewrite Hsum. discriminate.
Qed.

Lemma transition_model_distribution_witness :
  exists dist,
    transition_model pair_corpus page_A (17 # 20) = Ok dist /\
    (forall p v, dict_get dist p = Some v -> 0 <= v) /\
    total dist == 1 /\
    Qabs (total dist - 1) <= 1 # 1000000000.
Proof.
  apply (transition_model_distribution pair_corpus page_A [page_B] (17 # 20)).
  - apply closedb_closed. reflexivity.
  - reflexivity.
  - split; discriminate.
Defined.

(** ** The random source *)

Lemma bisect_bounds (a : list Q) (x : Q) (lo hi : nat) :
  (lo <= hi)%nat -> (lo <= bisect a x lo hi <= hi)%nat.
Proof.
  funelim (bisect a x lo hi); intro Hle; [|lia].
  pose proof (Nat.div_mod_eq (lo + hi) 2) as Hdiv.
  pose proof (Nat.mod_upper_bound (lo + hi) 2) as Hmod.
  destruct (negb (Qle_bool (nth ((lo + hi) / 2) a 0) x)).
  - match goal with
    | IH : _ -> (lo <= bisect _ _ lo _ <= _)%nat |- _ =>
        specialize (IH ltac:(lia)); lia
    end.
  - match goal with
    | IH : _ -> (S _ <= bisect _ _ (S _) hi <= hi)%nat |- _ =>
        specialize (IH ltac:(lia)); lia
    end.
Qed.

Lemma item_Ok (xs : list page) (i : nat) :
  (i < List.length xs)%nat -> exists p, item xs i = Ok p /\ In p xs.
Proof.
  intro H. unfold item. destruct (nth_error xs i) as [p|] eqn:E.
  - exists p. split; [reflexivity | eapply nth_error_In; eassumption].
  - apply nth_error_None in E. lia.
Qed.

Lemma choice_Ok (xs : list page) (r : nat) :
  xs <> [] -> exists p, choice xs r = Ok p /\ In p xs.
Proof.
  intro H. destruct xs as [|x t]; [congruence|]. unfold choice.
  apply item_Ok. apply Nat.mod_upper_bound. discriminate.
Qed.

Lemma length_accumulate (ws : list Q) :
  List.length (accumulate ws) = List.length ws.
Proof.
  destruct ws as [|w t]; [reflexivity|]. simpl. f_equal.
  generalize w. induction t as [|w' t IH]; intro acc; simpl; [reflexivity|].
  now rewrite IH.
Qed.

Lemma last_accumulate_from (ws : list Q) (acc dflt : Q) :
  ws <> [] -> last (accumulate_from acc ws) dflt == acc + qsum ws.
Proof.
  revert acc. induction ws as [|w t IH]; intros acc Hne; [congruence|].
  destruct t as [|w' t'].
  - simpl. lra.
  - change (last (accumulate_from acc (w :: w' :: t')) dflt)
      with (last (accumulate_from (acc + w) (w' :: t')) dflt).
    rewrite IH by discriminate. simpl. lra.
Qed.

Lemma last_accumulate (ws : list Q) (dflt : Q) :
  ws <> [] -> last (accumulate ws) dflt == qsum ws.
Proof.
  destruct ws as [|w t]; [congruence|]. intros _.
  destruct t as [|w' t'].
  - simpl. lra.
  - change (last (accumulate (w :: w' :: t')) dflt)
      with (last (accumulate_from w (w' :: t')) dflt).
    rewrite last_accumulate_from by discriminate. simpl. lra.
Qed.

(** With as many weights as pages and a positive total weight,
    [random.choices] returns a page of the population. *)
Lemma choices_Ok (population : list page) (weights : list Q) (u : Q) :
  population <> [] -> List.length weights = List.length population ->
  0 < qsum weights ->
  exists p, choices population weights u = Ok p /\ In p population.
Proof.
  intros Hne Hlen Hpos. unfold choices.
  rewrite length_accumulate, Hlen, Nat.eqb_refl. simpl.
  assert (Hw : weights <> [])
    by (destruct weights; [destruct population; [congruence | discriminate] | discriminate]).
  destruct (accumulate weights) as [|a0 a1] eqn:Ea.
  - apply (f_equal (@List.length Q)) in Ea. rewrite length_accumulate in Ea.
    destruct weights; [congruence | discriminate].
  - rewrite <- Ea.
    destruct (Qle_bool (last (accumulate weights) 0) 0) eqn:E.
    + apply Qle_bool_iff in E. rewrite last_accumulate in E by assumption. lra.
    + apply item_Ok.
      pose proof (bisect_bounds (accumulate weights)
                    (u * last (accumulate weights) 0) 0
                    (List.length population - 1) ltac:(lia)) as Hb.
      destruct population; [congruence | simpl in *; lia].
Qed.

(** ** sample_pagerank *)

Lemma rank_setitem (r : dict Q) (k q : page) (v : Q) :
  rank (setitem r k v) q = if String.eqb q k then v else rank r q.
Proof.
  unfold rank. destruct (String.eqb q k) eqn:E.
  - apply String.eqb_eq in E. subst q. now rewrite setitem_get_same.
  - apply String.eqb_neq in E. rewrite setitem_get_other; [reflexivity | congruence].
Qed.

Lemma sum_over_replace (ks : list page) (f : page -> Q) (k : page) (v : Q) :
  NoDup ks -> In k ks ->
  sum_over ks (fun q => if String.eqb q k then v else f q) ==
  sum_over ks f - f k + v.
Proof.
  induction ks as [|k0 t IH]; intros Hnd Hin; [destruct Hin|].
  inversion Hnd as [|? ? Hk0 Ht]; subst. rewrite !sum_over_cons.
  destruct (String.eqb k0 k) eqn:E.
  - apply String.eqb_eq in E. subst k0.
    rewrite (sum_over_ext t _ f); [lra|].
    intros p Hp. destruct (String.eqb p k) eqn:E2; [|reflexivity].
    apply String.eqb_eq in E2. subst. contradiction.
  - apply String.eqb_neq in E. destruct Hin as [H | H]; [contradiction|].
    rewrite IH by assumption. lra.
Qed.

Lemma total_setitem (r : dict Q) (k : page) (v : Q) :
  NoDup (keys r) -> In k (keys r) ->
  total (setitem r k v) == total r - rank r k + v.
Proof.
  intros Hnd Hin.
  rewrite (total_sum_over (setitem r k v))
    by (now rewrite setitem_keys_in).
  rewrite setitem_keys_in by assumption.
  rewrite (sum_over_ext _ _ (fun q => if String.eqb q k then v else rank r q))
    by (intros p _; now rewrite rank_setitem).
  rewrite sum_over_replace by assumption.
  now rewrite <- total_sum_over.
Qed.

Lemma inject_nat_succ (m : nat) :
  inject_Z (Z.of_nat (S m)) == inject_Z (Z.of_nat m) + 1.
Proof.
  rewrite Nat2Z.inj_succ, <- Z.add_1_r. now rewrite inject_Z_plus.
Qed.

(** The walk on a closed corpus: every step succeeds, the current page
    stays in the corpus and exactly one counter grows by one. *)
Lemma walk_Ok (c : Corpus) (d : Q) (rnd : nat -> Q) :
  closed c ->
  forall (count k : nat) (pg : page) (PR : dict Q),
    In pg (keys c) -> keys PR = keys c ->
    exists PR' pg',
      walk count c d rnd k pg PR = Ok (PR', pg', (k + count)%nat) /\
      In pg' (keys c) /\ keys PR' = keys c /\
      total PR' == total PR + inject_Z (Z.of_nat count) /\
      (forall p, rank PR p <= rank PR' p) /\
      ((forall p, exists m : nat, rank PR p == inject_Z (Z.of_nat m)) ->
       forall p, exists m : nat, rank PR' p == inject_Z (Z.of_nat m)).
Proof.
  intro Hcl. pose proof (Corpus_NoDup_keys c) as Hks.
  induction count as [|count IH]; intros k pg PR Hpg HPR.
  - exists PR, pg. simpl. rewrite Nat.add_0_r.
    repeat split; try assumption.
    + change (inject_Z 0) with 0. lra.
    + intro p. apply Qle_refl.
    + intro HN. exact HN.
  - simpl.
    assert (HpgPR : In pg (keys PR)) by now rewrite HPR.
    destruct (dict_get_some PR pg HpgPR) as [v Hv].
    unfold getitem at 1. rewrite Hv. simpl.
    destruct (dict_get_some c pg Hpg) as [links Hlinks].
    rewrite (transition_model_Ok c pg links d Hlinks)
      by now apply (closed_links c pg).
    simpl.
    assert (Hpop : map fst (tabulate (transition_value c links d) (keys c)) = keys c)
      by apply (keys_tabulate (transition_value c links d)).
    rewrite Hpop.
    destruct (choices_Ok (keys c)
                (map snd (tabulate (transition_value c links d) (keys c)))
                (rnd k)) as [pg1 [Hch Hpg1]].
    { destruct (keys c); [destruct Hpg | discriminate]. }
    { unfold tabulate. now rewrite !length_map. }
    { change (qsum (map snd (tabulate (transition_value c links d) (keys c))))
        with (total (tabulate (transition_value c links d) (keys c))).
      rewrite total_tabulate.
      rewrite (transition_value_sum c pg links d Hlinks)
        by now apply (closed_links c pg).
      reflexivity. }
    rewrite Hch. simpl.
    assert (HPR1 : keys (setitem PR pg (v + 1)) = keys c)
      by now rewrite setitem_keys_in.
    destruct (IH (S k) pg1 (setitem PR pg (v + 1)) Hpg1 HPR1)
      as [PR' [pg' [Hw [Hpg' [Hk' [Htot [Hmono Hnat]]]]]]].
    exists PR', pg'. rewrite <- Nat.add_succ_comm.
    assert (Hrank : rank PR pg = v) by (unfold rank; now rewrite Hv).
    repeat split; try assumption.
    + rewrite Htot, total_setitem by (rewrite ?HPR; assumption).
      change (Z.pos (Pos.of_succ_nat count)) with (Z.of_nat (S count)).
      rewrite Hrank, inject_nat_succ. lra.
    + intro p. eapply Qle_trans; [|apply Hmono].
      rewrite rank_setitem. destruct (String.eqb p pg) eqn:E.
      * apply String.eqb_eq in E. subst p. rewrite Hrank. lra.
      * apply Qle_refl.
    + intro HN. apply Hnat. intro p. rewrite rank_setitem.
      destruct (String.eqb p pg) eqn:E; [|apply HN].
      destruct (HN pg) as [m Hm]. exists (S m).
      rewrite inject_nat_succ, <- Hm, Hrank. reflexivity.
Qed.

Lemma inject_nat_pos (n : nat) : (1 <= n)%nat -> 0 < inject_Z (Z.of_nat n).
Proof.
  intro H. change 0 with (inject_Z 0). rewrite <- Zlt_Qlt. lia.
Qed.

(** The normalisation [PageRank.update({key: PageRank[key] / n ...})]. *)
Lemma normalise_Ok (PR : dict Q) (n : nat) :
  NoDup (keys PR) -> (1 <= n)%nat ->
  comprehension
    (fun key => c <- getitem PR key ;; pydiv c (inject_Z (Z.of_nat n)))
    (keys PR) [] =
  Ok (tabulate (fun p => rank PR p / inject_Z (Z.of_nat n)) (keys PR)).
Proof.
  intros Hnd Hn. apply comprehension_tabulate; [assumption|].
  intros k Hk. destruct (dict_get_some PR k Hk) as [v Hv].
  unfold getitem, rank. rewrite Hv. simpl. apply pydiv_Ok.
  pose proof (inject_nat_pos n Hn). lra.
Qed.

Lemma zero_counts (ks : list page) :
  NoDup ks ->
  keys (assign_all ks 0 []) = ks /\
  total (assign_all ks 0 []) == 0 /\
  forall p, rank (assign_all ks 0 []) p = 0.
Proof.
  intro Hnd. rewrite assign_all_tabulate by assumption.
  split; [apply keys_tabulate|]. split.
  - rewrite total_tabulate. apply sum_over_zero.
  - intro p. unfold rank.
    destruct (dict_get (tabulate (fun _ : page => 0) ks) p) as [v|] eqn:E;
      [|reflexivity].
    assert (Hp : In p ks)
      by (apply dict_get_keys in E; now rewrite keys_tabulate in E).
    rewrite dict_get_tabulate in E by assumption. now injection E as <-.
Qed.

(** A run of the sampler on a non-empty closed corpus, in exact
    arithmetic. *)
Lemma sample_pagerank_run
    (c : Corpus) (d : Q) (n : nat) (rnd : draws) :
  closed c -> entries c <> [] -> (1 <= n)%nat ->
  exists t counts pg0 pg k,
    choice (keys c) (first_draw rnd) = Ok pg0 /\
    walk n c d (unit_draw rnd) 0 pg0 (assign_all (keys c) 0 []) =
      Ok (counts, pg, k) /\
    sample_pagerank c d n rnd = Ok t /\
    keys t = keys c /\
    (forall p v, dict_get t p = Some v -> 0 <= v <= 1) /\
    total t == 1 /\
    total counts == inject_Z (Z.of_nat n) /\
    forall p, In p (keys c) ->
      (exists m : nat, rank counts p == inject_Z (Z.of_nat m)) /\
      dict_get t p = Some (rank counts p / inject_Z (Z.of_nat n)).
Proof.
  intros Hcl Hne Hn.
  pose proof (Corpus_NoDup_keys c) as Hks.
  destruct (zero_counts (keys c) Hks) as [Hk0 [Ht0 Hr0]].
  destruct (choice_Ok (keys c) (first_draw rnd)) as [pg0 [Hch Hpg0]].
  { destruct (entries c); [congruence | discriminate]. }
  destruct (walk_Ok c d (unit_draw rnd) Hcl n 0%nat pg0
              (assign_all (keys c) 0 []) Hpg0 Hk0)
    as [counts [pg [Hw [_ [Hkc [Htot [Hmono Hnat]]]]]]].
  pose proof (inject_nat_pos n Hn) as Hnpos.
  set (qn := inject_Z (Z.of_nat n)) in *.
  assert (Hcounts : total counts == qn) by (rewrite Htot, Ht0; lra).
  assert (Hsum : sum_over (keys c) (rank counts) == qn)
    by (rewrite <- Hkc, <- total_sum_over; [assumption | now rewrite Hkc]).
  assert (Hnonneg : forall p, 0 <= rank counts p)
    by (intro p; rewrite <- (Hr0 p); apply Hmono).
  exists (tabulate (fun p => rank counts p / qn) (keys c)), counts, pg0, pg,
    (0 + n)%nat.
  split; [assumption|]. split; [assumption|]. split.
  { unfold sample_pagerank. rewrite Hch. simpl. rewrite Hw. simpl.
    rewrite normalise_Ok; [|now rewrite Hkc | assumption]. simpl.
    rewrite Hkc. f_equal. apply update_same_keys.
    - now rewrite keys_tabulate.
    - now rewrite keys_tabulate. }
  split; [apply keys_tabulate|]. split; [|split; [|split; [assumption|]]].
  - intros p v Hv.
    assert (Hp : In p (keys c))
      by (apply dict_get_keys in Hv; now rewrite keys_tabulate in Hv).
    rewrite dict_get_tabulate in Hv by assumption. injection Hv as <-.
    assert (Hle : rank counts p <= qn).
    { rewrite <- Hsum. apply sum_over_term; [intros; apply Hnonneg | assumption]. }
    split.
    + apply Qle_shift_div_l; [assumption|]. specialize (Hnonneg p). lra.
    + apply Qle_shift_div_r; [assumption|]. lra.
  - rewrite total_tabulate.
    rewrite (sum_over_ext _ _ (fun p => / qn * rank counts p))
      by (intros p _; field; lra).
    rewrite sum_over_scale, Hsum. field. lra.
  - intros p Hp. split.
    + apply Hnat. intro q. exists 0%nat. now rewrite Hr0.
    + now rewrite dict_get_tabulate.
Qed.


(** C4: on a non-empty corpus (every linked page is a key, the
    invariant corpora are specified with), for a damping factor in
    [0,1], [n >= 1] and every sequence of draws, [sample_pagerank]
    returns a table over the pages of the corpus whose
    values lie in [0,1] and sum to exactly 1: each value is the visit
    counter of its page divided by [n], the counters are natural numbers
    and they sum to exactly [n]. *)
Theorem sample_pagerank_sums_to_one
    (c : Corpus) (d : Q) (n : nat) (rnd : draws) :
  closed c -> entries c <> [] -> 0 <= d <= 1 -> (1 <= n)%nat ->
  exists t counts pg0 pg k,
    choice (keys c) (first_draw rnd) = Ok pg0 /\
    walk n c d (unit_draw rnd) 0 pg0 (assign_all (keys c) 0 []) =
      Ok (counts, pg, k) /\
    sample_pagerank c d n rnd = Ok t /\
    keys t = keys c /\
    (forall p v, dict_get t p = Some v -> 0 <= v <= 1) /\
    total t == 1 /\
    total counts == inject_Z (Z.of_nat n) /\
    forall p, In p (keys c) ->
      (exists m : nat, rank counts p == inject_Z (Z.of_nat m)) /\
      dict_get t p = Some (rank counts p / inject_Z (Z.of_nat n)).
Proof.
  intros Hcl Hne _ Hn. now apply sample_pagerank_run.
Qed.

Lemma sample_pagerank_sums_to_one_witness :
  exists t,
    sample_pagerank dangling_corpus (1 # 2) 3 fixed_draws = Ok t /\
    total t == 1.
Proof.
  destruct (sample_pagerank_sums_to_one dangling_corpus (1 # 2) 3 fixed_draws)
    as [t [counts [pg0 [pg [k [_ [_ [Hs [_ [_ [Ht _]]]]]]]]]]].
  - apply closedb_closed. reflexivity.
  - discriminate.
  - split; discriminate.
  - lia.
  - exists t. split; assumption.
Defined.

(** *** No division by zero for [n >= 1] *)

Lemma add_linked_raises (ps : list page) (v : Q) (pd : dict Q) (e : exn) :
  add_linked ps v pd = Raise e -> e = KeyError.
Proof.
  revert pd. induction ps as [|p t IH]; intros pd H; [discriminate|].
  simpl in H. unfold getitem in H.
  destruct (dict_get pd p); simpl in H; [eauto | congruence].
Qed.

Lemma transition_model_raises (c : dict (list page)) (pg : page) (d : Q)
    (e : exn) :
  transition_model c pg d = Raise e -> e = KeyError.
Proof.
  unfold transition_model, getitem.
  destruct (dict_get c pg) as [links|] eqn:Hget; simpl; [|congruence].
  assert (Hne : c <> []) by (destruct c; [discriminate | congruence]).
  destruct (is_empty links) eqn:E.
  - rewrite pydiv_len by assumption. discriminate.
  - apply is_empty_false in E.
    rewrite pydiv_len by assumption. simpl.
    rewrite pydiv_len by assumption. simpl.
    apply add_linked_raises.
Qed.

Lemma choices_raises (population : list page) (weights : list Q) (u : Q)
    (e : exn) :
  choices population weights u = Raise e -> e <> ZeroDivisionError.
Proof.
  unfold choices, item.
  destruct (negb _); [congruence|].
  destruct (accumulate weights); [congruence|].
  destruct (Qle_bool _ _); [congruence|].
  destruct (nth_error _ _); congruence.
Qed.

Lemma walk_raises (c : dict (list page)) (d : Q) (rnd : nat -> Q)
    (count k : nat) (pg : page) (PR : dict Q) (e : exn) :
  walk count c d rnd k pg PR = Raise e -> e <> ZeroDivisionError.
Proof.
  revert k pg PR. induction count as [|count IH]; intros k pg PR H;
    [discriminate|].
  simpl in H. unfold getitem in H.
  destruct (dict_get PR pg); simpl in H; [|congruence].
  destruct (transition_model c pg d) as [tm|e'] eqn:Etm; simpl in H.
  - destruct (choices (map fst tm) (map snd tm) (rnd k)) as [pg'|e'] eqn:Ech;
      simpl in H.
    + eapply IH. eassumption.
    + injection H as <-. eapply choices_raises. eassumption.
  - injection H as <-. apply transition_model_raises in Etm. congruence.
Qed.

(** C10: on a non-empty corpus and for every damping factor,
    [sample_pagerank] with [n = 0] draws the first page, runs the loop
    zero times (the counters stay at 0 and no [random()] is consumed) and
    raises [ZeroDivisionError] at the final normalisation; with [n >= 1]
    the divisor is positive and [ZeroDivisionError] is never raised. *)
Theorem sample_pagerank_division
    (c : Corpus) (d : Q) (rnd : draws) :
  entries c <> [] ->
  (exists pg,
     choice (keys c) (first_draw rnd) = Ok pg /\
     walk 0 c d (unit_draw rnd) 0 pg (assign_all (keys c) 0 []) =
       Ok (assign_all (keys c) 0 [], pg, 0%nat)) /\
  sample_pagerank c d 0 rnd = Raise ZeroDivisionError /\
  forall n, (1 <= n)%nat ->
    0 < inject_Z (Z.of_nat n) /\
    sample_pagerank c d n rnd <> Raise ZeroDivisionError.
Proof.
  intro Hne. pose proof (Corpus_NoDup_keys c) as Hks.
  destruct (choice_Ok (keys c) (first_draw rnd)) as [pg0 [Hch Hpg0]].
  { destruct (entries c); [congruence | discriminate]. }
  split; [exists pg0; split; [assumption | reflexivity]|]. split.
  - unfold sample_pagerank. rewrite Hch. simpl.
    rewrite assign_all_tabulate by assumption.
    rewrite (keys_tabulate (fun _ : page => 0)).
    destruct (keys c) as [|k0 t]; [destruct Hpg0|].
    simpl. unfold getitem. simpl. rewrite String.eqb_refl. reflexivity.
  - intros n Hn. split; [now apply inject_nat_pos|].
    unfold sample_pagerank. rewrite Hch. simpl.
    destruct (walk n c d (unit_draw rnd) 0 pg0 (assign_all (keys c) 0 []))
      as [st|e] eqn:Hw; simpl.
    + destruct (comprehension _ (keys (fst (fst st))) []) as [fresh|e] eqn:Hc;
        simpl; [discriminate|].
      intro H. injection H as ->.
      apply comprehension_Raise in Hc. destruct Hc as [key [_ Hkey]].
      unfold getitem in Hkey.
      destruct (dict_get (fst (fst st)) key); simpl in Hkey; [|discriminate].
      rewrite pydiv_Ok in Hkey; [discriminate|].
      pose proof (inject_nat_pos n Hn). lra.
    + intro H. injection H as ->. now apply walk_raises in Hw.
Qed.

Lemma sample_pagerank_division_witness :
  sample_pagerank pair_corpus (17 # 20) 0 fixed_draws = Raise ZeroDivisionError /\
  sample_pagerank pair_corpus (17 # 20) 2 fixed_draws <> Raise ZeroDivisionError.
Proof.
  destruct (sample_pagerank_division pair_corpus (17 # 20) fixed_draws)
    as [_ [H0 Hn]].
  - discriminate.
  - split; [exact H0|]. apply Hn. lia.
Defined.

(** ** iterate_pagerank: one sweep *)

Lemma rank_getitem (r : dict Q) (k : page) :
  In k (keys r) -> getitem r k = Ok (rank r k).
Proof.
  intro H. destruct (dict_get_some r k H) as [v Hv].
  unfold getitem, rank. now rewrite Hv.
Qed.

Lemma summation_loop_Ok (c : dict (list page)) (r : dict Q) (pg : page) :
  c <> [] -> incl (keys c) (keys r) ->
  forall ks s, incl ks (keys c) ->
    exists s',
      summation_loop c r pg ks s = Ok s' /\
      s' == s + sum_over ks (fun i => rank r i * weight c pg i).
Proof.
  intros Hne Hr. induction ks as [|i t IH]; intros s Hks.
  - exists s. split; [reflexivity|]. sum_nil. lra.
  - assert (Hi : In i (keys c)) by (apply Hks; now left).
    assert (Ht : incl t (keys c)) by (intros q Hq; apply Hks; now right).
    destruct (dict_get_some c i Hi) as [links Hlinks].
    simpl summation_loop. unfold getitem at 1. rewrite Hlinks. simpl bind.
    rewrite sum_over_cons. unfold weight at 1. rewrite Hlinks. unfold share.
    destruct (is_empty links) eqn:E; simpl negb; cbv iota.
    + rewrite rank_getitem by now apply Hr. simpl bind.
      rewrite pydiv_len by assumption. simpl bind.
      destruct (IH (s + rank r i / len c) Ht) as [s' [Hs' Heq]].
      exists s'. split; [assumption|]. rewrite Heq.
      pose proof (len_pos c Hne). field. lra.
    + destruct (mem pg links) eqn:M.
      * apply is_empty_false in E.
        rewrite rank_getitem by now apply Hr. simpl bind.
        rewrite pydiv_len by assumption. simpl bind.
        destruct (IH (s + rank r i / len links) Ht) as [s' [Hs' Heq]].
        exists s'. split; [assumption|]. rewrite Heq.
        pose proof (len_pos links E). field. lra.
      * destruct (IH s Ht) as [s' [Hs' Heq]].
        exists s'. split; [assumption|]. rewrite Heq. lra.
Qed.

Lemma formula_Ok (c : dict (list page)) (d : Q) (r : dict Q) (pg : page) :
  c <> [] -> incl (keys c) (keys r) ->
  exists v, formula c d r pg = Ok v /\ v == next_rank c d r pg.
Proof.
  intros Hne Hr. unfold formula. rewrite pydiv_len by assumption. simpl bind.
  destruct (summation_loop_Ok c r pg Hne Hr (keys c) 0 (incl_refl _))
    as [s' [Hs' Heq]].
  rewrite Hs'. simpl bind. eexists. split; [reflexivity|].
  unfold next_rank. rewrite Heq. lra.
Qed.

(** A sweep over a vector that holds every page of the corpus succeeds
    and stores, for each page, the right-hand side of the update
    equation evaluated on that vector. *)
Lemma sweep_Ok (c : Corpus) (d : Q) (r : dict Q) :
  incl (keys c) (keys r) ->
  exists r',
    sweep c d r = Ok r' /\ keys r' = keys c /\
    forall p, In p (keys c) ->
      formula c d r p = Ok (rank r' p) /\ rank r' p == next_rank c d r p.
Proof.
  intro Hr. pose proof (Corpus_NoDup_keys c) as Hks.
  set (g := fun p => match formula c d r p with Ok v => v | Raise _ => 0 end).
  assert (Hne : forall p, In p (keys c) -> entries c <> []).
  { intros p Hp E. rewrite E in Hp. destruct Hp. }
  assert (Hg : forall p, In p (keys c) ->
                 formula c d r p = Ok (g p) /\ g p == next_rank c d r p).
  { intros p Hp. destruct (formula_Ok c d r p (Hne p Hp) Hr) as [v [Hv Heq]].
    unfold g. rewrite Hv. split; [reflexivity | assumption]. }
  exists (tabulate g (keys c)). split; [|split].
  - unfold sweep. apply comprehension_tabulate; [assumption|].
    intros k Hk. apply Hg. assumption.
  - apply keys_tabulate.
  - intros p Hp. rewrite rank_tabulate by assumption. now apply Hg.
Qed.

(** ** The update equation as a linear map *)

Lemma Qdiv_nonneg (x y : Q) : 0 <= x -> 0 <= y -> 0 <= x / y.
Proof.
  intros Hx Hy. unfold Qdiv. apply Qmult_le_0_compat; [assumption|].
  now apply Qinv_le_0_compat.
Qed.

Lemma Qmult_le_l_weak (x y a : Q) : 0 <= a -> x <= y -> a * x <= a * y.
Proof.
  intros Ha Hxy. rewrite (Qmult_comm a x), (Qmult_comm a y).
  now apply Qmult_le_compat_r.
Qed.

Lemma sum_over_minus (ks : list page) (f g : page -> Q) :
  sum_over ks (fun p => f p - g p) == sum_over ks f - sum_over ks g.
Proof.
  induction ks as [|k t IH]; [sum_nil; lra|].
  rewrite !sum_over_cons, IH. lra.
Qed.

Lemma share_nonneg (c : dict (list page)) (pg : page) (li : list page) :
  0 <= share c pg li.
Proof.
  unfold share. pose proof (len_nonneg c). pose proof (len_nonneg li).
  destruct (is_empty li); [apply Qdiv_nonneg; lra|].
  destruct (mem pg li); [apply Qdiv_nonneg; lra | apply Qle_refl].
Qed.

Lemma weight_nonneg (c : dict (list page)) (pg i : page) : 0 <= weight c pg i.
Proof.
  unfold weight. destruct (dict_get c i); [apply share_nonneg | apply Qle_refl].
Qed.

Lemma len_keys (c : dict (list page)) : len (keys c) = len c.
Proof.
  unfold len, keys. now rewrite length_map.
Qed.

(** The shares a page hands out add up to at most 1, and to exactly 1
    when all its links are pages of the corpus. *)
Lemma share_column (c : Corpus) (i : page) (li : list page) :
  dict_get c i = Some li ->
  sum_over (keys c) (fun p => share c p li) <= 1 /\
  (incl li (keys c) -> sum_over (keys c) (fun p => share c p li) == 1).
Proof.
  intro Hget.
  assert (Hne : entries c <> []) by (destruct (entries c); [discriminate | congruence]).
  pose proof (len_pos _ Hne) as HN.
  pose proof (Corpus_NoDup_keys c) as Hks.
  assert (Hli : NoDup li)
    by (eapply Corpus_NoDup_links; apply dict_get_In; eassumption).
  unfold share. destruct (is_empty li) eqn:E.
  - assert (H1 : sum_over (keys c) (fun _ => 1 / len c) == 1)
      by (rewrite sum_over_const, len_keys; field; lra).
    split; [rewrite H1; apply Qle_refl | intros _; exact H1].
  - apply is_empty_false in E. pose proof (len_pos _ E) as HL.
    rewrite sum_over_indicator.
    set (m := len (filter (fun p => mem p li) (keys c))).
    assert (Hm : m <= len li) by (apply len_le; now apply filter_mem_length).
    split.
    + setoid_replace (m * (1 / len li)) with (m / len li) by (field; lra).
      apply Qle_shift_div_r; [assumption | lra].
    + intro Hincl.
      assert (Hm' : m = len li)
        by (unfold m, len; now rewrite filter_mem_length_closed).
      rewrite Hm'. field. lra.
Qed.

Lemma weight_column_le (c : Corpus) (i : page) :
  sum_over (keys c) (fun p => weight c p i) <= 1.
Proof.
  unfold weight. destruct (dict_get c i) as [li|] eqn:Hget.
  - now apply (share_column c i li).
  - rewrite sum_over_zero. discriminate.
Qed.

Lemma weight_column_closed (c : Corpus) (i : page) :
  closed c -> In i (keys c) ->
  sum_over (keys c) (fun p => weight c p i) == 1.
Proof.
  intros Hcl Hi. destruct (dict_get_some c i Hi) as [li Hget].
  unfold weight. rewrite Hget.
  apply (share_column c i li Hget). now apply (closed_links c i).
Qed.

Lemma next_rank_diff (c : dict (list page)) (d : Q) (r s : dict Q) (p : page) :
  next_rank c d r p - next_rank c d s p ==
  d * sum_over (keys c) (fun i => (rank r i - rank s i) * weight c p i).
Proof.
  unfold next_rank.
  rewrite (sum_over_ext _
             (fun i => (rank r i - rank s i) * weight c p i)
             (fun i => rank r i * weight c p i - rank s i * weight c p i))
    by (intros; ring).
  rewrite sum_over_minus. ring.
Qed.

(** The update equation contracts the distance by the damping factor. *)
Lemma next_rank_contracts (c : Corpus) (d : Q) (r s : dict Q) :
  0 <= d ->
  sum_over (keys c)
    (fun p => Qabs (next_rank c d r p - next_rank c d s p)) <=
  d * distance (keys c) r s.
Proof.
  intro Hd.
  apply Qle_trans with
    (sum_over (keys c)
       (fun p => d * sum_over (keys c)
                      (fun i => Qabs (rank r i - rank s i) * weight c p i))).
  - apply sum_over_le. intros p _.
    rewrite next_rank_diff, Qabs_Qmult, (Qabs_pos d) by assumption.
    apply Qmult_le_l_weak; [assumption|].
    eapply Qle_trans; [apply Qabs_sum_over|].
    apply sum_over_le. intros i _.
    rewrite Qabs_Qmult, (Qabs_pos (weight c p i)) by apply weight_nonneg.
    apply Qle_refl.
  - rewrite sum_over_scale.
    apply Qmult_le_l_weak; [assumption|].
    rewrite (sum_over_swap (keys c) (keys c)
               (fun i p => Qabs (rank r i - rank s i) * weight c p i)).
    unfold distance. apply sum_over_le. intros i _.
    rewrite sum_over_scale.
    pose proof (weight_column_le c i) as Hcol.
    pose proof (Qabs_nonneg (rank r i - rank s i)) as Habs.
    rewrite <- (Qmult_1_r (Qabs (rank r i - rank s i))) at 2.
    apply Qmult_le_l_weak; assumption.
Qed.

(** The update equation preserves the sum of the ranks on a closed
    corpus. *)
Lemma next_rank_total (c : Corpus) (d : Q) (r : dict Q) :
  closed c -> entries c <> [] ->
  sum_over (keys c) (next_rank c d r) ==
  (1 - d) + d * sum_over (keys c) (rank r).
Proof.
  intros Hcl Hne. pose proof (len_pos _ Hne) as HN. unfold next_rank.
  rewrite sum_over_plus, sum_over_const, sum_over_scale, len_keys.
  rewrite (sum_over_swap (keys c) (keys c)
             (fun i p => rank r i * weight c p i)).
  rewrite (sum_over_ext _ _ (rank r)).
  - field. lra.
  - intros i Hi. rewrite sum_over_scale, weight_column_closed by assumption.
    ring.
Qed.

(** ** Powers of the damping factor *)

Lemma qpow_nonneg (d : Q) (m : nat) : 0 <= d -> 0 <= qpow d m.
Proof.
  intro Hd. induction m as [|m IH]; simpl; [discriminate|].
  now apply Qmult_le_0_compat.
Qed.

Lemma qpow_le_1 (d : Q) (m : nat) : 0 <= d <= 1 -> qpow d m <= 1.
Proof.
  intros [Hd0 Hd1]. induction m as [|m IH]; simpl; [apply Qle_refl|].
  pose proof (qpow_nonneg d m Hd0).
  apply Qle_trans with (1 * qpow d m); [|lra].
  now apply Qmult_le_compat_r.
Qed.

(** Bernoulli's inequality, read from right to left. *)
Lemma qpow_bernoulli (d : Q) (m : nat) :
  0 <= d <= 1 -> qpow d m * (1 + inject_Z (Z.of_nat m) * (1 - d)) <= 1.
Proof.
  intros Hd. induction m as [|m IH].
  - simpl. change (inject_Z 0) with 0. lra.
  - rewrite inject_nat_succ. simpl qpow.
    pose proof (qpow_nonneg d m (proj1 Hd)) as Hq0.
    pose proof (qpow_le_1 d m Hd) as Hq1.
    set (q := qpow d m) in *. set (k := inject_Z (Z.of_nat m)) in *.
    assert (H1 : d * (q * (1 + k * (1 - d))) <= d * 1)
      by (apply Qmult_le_l_weak; [apply Hd | exact IH]).
    assert (H2 : (1 - d) * (d * q) <= (1 - d) * 1).
    { apply Qmult_le_l_weak; [lra|].
      apply Qle_trans with (1 * q); [|lra].
      apply Qmult_le_compat_r; [apply Hd | assumption]. }
    setoid_replace (d * q * (1 + (k + 1) * (1 - d)))
      with (d * (q * (1 + k * (1 - d))) + (1 - d) * (d * q)) by ring.
    lra.
Qed.

(** Below 1, some power of the damping factor makes any bound small. *)
Lemma qpow_small (d D : Q) :
  0 <= d < 1 -> 0 <= D -> exists m, qpow d m * D < 1 # 1000.
Proof.
  intros [Hd0 Hd1] HD.
  set (x := 1000 * D / (1 - d)).
  assert (Hx : 0 <= x) by (apply Qdiv_nonneg; lra).
  exists (Z.to_nat (Qceiling x)).
  pose proof (Qle_ceiling x) as Hc.
  assert (Hz : (0 <= Qceiling x)%Z).
  { rewrite Zle_Qle. change (inject_Z 0) with 0. lra. }
  set (m := Z.to_nat (Qceiling x)).
  assert (Hm : inject_Z (Z.of_nat m) = inject_Z (Qceiling x))
    by (unfold m; now rewrite Z2Nat.id).
  pose proof (qpow_bernoulli d m (conj Hd0 (Qlt_le_weak _ _ Hd1))) as Hb.
  pose proof (qpow_nonneg d m Hd0) as Hq0.
  rewrite Hm in Hb. set (q := qpow d m) in *.
  set (k := inject_Z (Qceiling x)) in *.
  assert (Hk : 1000 * D <= k * (1 - d)).
  { apply Qle_trans with (x * (1 - d)).
    - unfold x.
      setoid_replace (1000 * D / (1 - d) * (1 - d)) with (1000 * D)
        by (field; lra).
      apply Qle_refl.
    - apply Qmult_le_compat_r; [assumption | lra]. }
  assert (H1 : q * (1000 * D) <= q * (k * (1 - d)))
    by (apply Qmult_le_l_weak; assumption).
  assert (H2 : q * (1000 * D) <= 1 - q) by lra.
  destruct (Qlt_le_dec 0 q) as [Hpos | Hzero].
  - lra.
  - assert (Hq : q == 0) by lra. rewrite Hq. lra.
Qed.

(** ** iterate_pagerank: the loop *)

Lemma any_change_Ok (r s : dict Q) (ks : list page) :
  incl ks (keys r) -> incl ks (keys s) ->
  any_change r s ks = Ok (changed ks r s).
Proof.
  induction ks as [|k t IH]; intros Hr Hs; [reflexivity|].
  cbn [any_change].
  rewrite (rank_getitem r k) by (apply Hr; now left). cbn [bind].
  rewrite (rank_getitem s k) by (apply Hs; now left). cbn [bind].
  unfold changed. cbn [existsb].
  destruct (Qle_bool (1 # 1000) (Qabs (rank r k - rank s k))); [reflexivity|].
  cbn [orb]. apply IH; intros q Hq; [apply Hr | apply Hs]; now right.
Qed.

Lemma changed_false (ks : list page) (r s : dict Q) :
  changed ks r s = false <->
  forall p, In p ks -> Qabs (rank r p - rank s p) < 1 # 1000.
Proof.
  unfold changed. split.
  - intros H p Hp. apply Qnot_le_lt. intro Hle.
    apply Qle_bool_iff in Hle.
    assert (Ht : existsb
              (fun p => Qle_bool (1 # 1000) (Qabs (rank r p - rank s p))) ks
            = true)
      by (apply existsb_exists; eauto).
    congruence.
  - intro H. destruct (existsb _ ks) eqn:E; [|reflexivity].
    apply existsb_exists in E. destruct E as [p [Hp Hle]].
    apply Qle_bool_iff in Hle. specialize (H p Hp). lra.
Qed.

Lemma changed_distance (ks : list page) (r s : dict Q) :
  changed ks r s = true -> 1 # 1000 <= distance ks r s.
Proof.
  unfold changed. intro H. apply existsb_exists in H.
  destruct H as [p [Hp Hle]]. apply Qle_bool_iff in Hle.
  eapply Qle_trans; [exact Hle|]. unfold distance.
  apply (sum_over_term ks (fun p => Qabs (rank r p - rank s p))); [|assumption].
  intros q _. apply Qabs_nonneg.
Qed.

(** One turn of the loop. *)
Lemma iterate_loop_step (c : Corpus) (d : Q) (fuel : nat) (r r' : dict Q) :
  keys r = keys c -> sweep c d r = Ok r' -> keys r' = keys c ->
  iterate_loop (S fuel) c d r =
  if changed (keys c) r r' then iterate_loop fuel c d r'
  else Some (Ok (mkState r r')).
Proof.
  intros Hr Hsw Hr'. pose proof (Corpus_NoDup_keys c) as Hks.
  simpl iterate_loop. rewrite Hsw.
  rewrite update_same_keys by (rewrite ?Hr, ?Hr'; (reflexivity || assumption)).
  rewrite any_change_Ok
    by (rewrite ?Hr, ?Hr'; apply incl_refl).
  destruct (changed (keys c) r r'); reflexivity.
Qed.

Lemma sweep_keys (c : Corpus) (d : Q) (r r' : dict Q) :
  keys r = keys c -> sweep c d r = Ok r' ->
  keys r' = keys c /\
  forall p, In p (keys c) ->
    formula c d r p = Ok (rank r' p) /\ rank r' p == next_rank c d r p.
Proof.
  intros Hr Hsw.
  destruct (sweep_Ok c d r) as [r2 [Hsw2 H2]];
    [rewrite Hr; apply incl_refl|].
  rewrite Hsw in Hsw2. injection Hsw2 as <-. exact H2.
Qed.

Lemma sweep_total (c : Corpus) (d : Q) (r : dict Q) :
  keys r = keys c -> exists r', sweep c d r = Ok r'.
Proof.
  intro Hr. destruct (sweep_Ok c d r) as [r' [Hsw _]];
    [rewrite Hr; apply incl_refl | eauto].
Qed.

(** Two successive sweeps move the vector by at most [d] times the
    previous move. *)
Lemma sweep_contracts (c : Corpus) (d : Q) (r0 r1 r2 : dict Q) :
  0 <= d -> keys r0 = keys c ->
  sweep c d r0 = Ok r1 -> sweep c d r1 = Ok r2 ->
  distance (keys c) r1 r2 <= d * distance (keys c) r0 r1.
Proof.
  intros Hd Hr0 Hs1 Hs2.
  destruct (sweep_keys c d r0 r1 Hr0 Hs1) as [Hr1 Hv1].
  destruct (sweep_keys c d r1 r2 Hr1 Hs2) as [Hr2 Hv2].
  eapply Qle_trans; [|apply (next_rank_contracts c d r0 r1 Hd)].
  unfold distance. apply sum_over_le. intros p Hp.
  rewrite (proj2 (Hv1 p Hp)), (proj2 (Hv2 p Hp)). apply Qle_refl.
Qed.

(** The loop is left as soon as the distance between a vector and its
    sweep, shrunk [m] times by the damping factor, is below 0.001. *)
Lemma iterate_loop_terminates (c : Corpus) (d : Q) :
  0 <= d ->
  forall (m : nat) (r r' : dict Q),
    keys r = keys c -> sweep c d r = Ok r' ->
    qpow d m * distance (keys c) r r' < 1 # 1000 ->
    exists st, iterate_loop (S m) c d r = Some (Ok st).
Proof.
  intro Hd. induction m as [|m IH]; intros r r' Hr Hsw Hsmall.
  - destruct (sweep_keys c d r r' Hr Hsw) as [Hr' _].
    rewrite (iterate_loop_step c d 0 r r' Hr Hsw Hr').
    destruct (changed (keys c) r r') eqn:E; [|eauto].
    apply changed_distance in E. simpl qpow in Hsmall. lra.
  - destruct (sweep_keys c d r r' Hr Hsw) as [Hr' _].
    rewrite (iterate_loop_step c d (S m) r r' Hr Hsw Hr').
    destruct (changed (keys c) r r') eqn:E; [|eauto].
    destruct (sweep_total c d r' Hr') as [r2 Hsw2].
    apply (IH r' r2 Hr' Hsw2).
    pose proof (sweep_contracts c d r r' r2 Hd Hr Hsw Hsw2) as Hc.
    pose proof (qpow_nonneg d m Hd) as Hq.
    eapply Qle_lt_trans; [|exact Hsmall]. simpl qpow.
    setoid_replace (d * qpow d m * distance (keys c) r r')
      with (qpow d m * (d * distance (keys c) r r')) by ring.
    now apply Qmult_le_l_weak.
Qed.

(** More fuel does not change an outcome already reached. *)
Lemma iterate_loop_more_fuel (c : dict (list page)) (d : Q) :
  forall (fuel fuel' : nat) (r : dict Q) (out : result loop_state),
    iterate_loop fuel c d r = Some out -> (fuel <= fuel')%nat ->
    iterate_loop fuel' c d r = Some out.
Proof.
  induction fuel as [|fuel IH]; intros fuel' r out H Hle; [discriminate|].
  destruct fuel' as [|fuel']; [lia|].
  simpl in *. destruct (sweep c d r); [|assumption].
  destruct (any_change r (update r a) (keys c)) as [[|]|]; try assumption.
  apply IH; [assumption | lia].
Qed.

(** What holds when the loop is left: the state keeps the vector the
    last sweep started from and the vector that sweep produced, and no
    page differs by 0.001 or more between them.  An invariant of the
    sweeps holds of the former. *)
Lemma iterate_loop_exit (c : Corpus) (d : Q) (P : dict Q -> Prop) :
  (forall r r', keys r = keys c -> P r -> sweep c d r = Ok r' -> P r') ->
  forall (fuel : nat) (r : dict Q) (st : loop_state),
    keys r = keys c -> P r ->
    iterate_loop fuel c d r = Some (Ok st) ->
    keys (PageRank_of st) = keys c /\
    P (PageRank_of st) /\
    sweep c d (PageRank_of st) = Ok (new_PageRank_of st) /\
    changed (keys c) (PageRank_of st) (new_PageRank_of st) = false.
Proof.
  intro HP. induction fuel as [|fuel IH]; intros r st Hr Pr H; [discriminate|].
  destruct (sweep_total c d r Hr) as [r' Hsw].
  destruct (sweep_keys c d r r' Hr Hsw) as [Hr' _].
  rewrite (iterate_loop_step c d fuel r r' Hr Hsw Hr') in H.
  destruct (changed (keys c) r r') eqn:E.
  - apply (IH r' st Hr'); [apply (HP r r'); assumption | assumption].
  - injection H as <-. simpl. auto.
Qed.

Lemma iterate_loop_no_exception (c : Corpus) (d : Q) :
  forall (fuel : nat) (r : dict Q) (e : exn),
    keys r = keys c -> iterate_loop fuel c d r <> Some (Raise e).
Proof.
  induction fuel as [|fuel IH]; intros r e Hr; [discriminate|].
  destruct (sweep_total c d r Hr) as [r' Hsw].
  destruct (sweep_keys c d r r' Hr Hsw) as [Hr' _].
  rewrite (iterate_loop_step c d fuel r r' Hr Hsw Hr').
  destruct (changed (keys c) r r'); [now apply IH | discriminate].
Qed.

(** ** iterate_pagerank: the whole run *)

(** The vector [{p: 1 / N for p in corpus}]. *)
Lemma uniform_Ok (c : Corpus) :
  comprehension (fun _ => pydiv 1 (len c)) (keys c) [] =
  Ok (tabulate (fun _ => 1 / len c) (keys c)).
Proof.
  apply comprehension_tabulate; [apply Corpus_NoDup_keys|].
  intros k Hk. apply pydiv_len. intro E. rewrite E in Hk. destruct Hk.
Qed.

Lemma iterate_init_Ok (c : Corpus) (d : Q) :
  exists r1,
    sweep c d (tabulate (fun _ => 1 / len c) (keys c)) = Ok r1 /\
    iterate_init c d = Ok r1 /\ keys r1 = keys c.
Proof.
  pose proof (Corpus_NoDup_keys c) as Hks.
  set (r0 := tabulate (fun _ => 1 / len c) (keys c)).
  assert (Hr0 : keys r0 = keys c) by apply keys_tabulate.
  destruct (sweep_total c d r0 Hr0) as [r1 Hsw].
  destruct (sweep_keys c d r0 r1 Hr0 Hsw) as [Hr1 _].
  exists r1. split; [assumption|]. split; [|assumption].
  unfold iterate_init. rewrite uniform_Ok. simpl bind.
  rewrite update_empty by (fold r0; now rewrite Hr0).
  fold r0. rewrite Hsw. simpl bind.
  now rewrite update_empty by now rewrite Hr1.
Qed.

(** For a damping factor in [[0,1)] the run leaves the loop. *)
Lemma iterate_run_terminates (c : Corpus) (d : Q) :
  0 <= d < 1 -> exists fuel st, iterate_run fuel c d = Some (Ok st).
Proof.
  intros [Hd0 Hd1].
  destruct (iterate_init_Ok c d) as [r1 [_ [Hinit Hr1]]].
  destruct (sweep_total c d r1 Hr1) as [r2 Hsw2].
  assert (HD : 0 <= distance (keys c) r1 r2)
    by (apply sum_over_nonneg; intros; apply Qabs_nonneg).
  destruct (qpow_small d _ (conj Hd0 Hd1) HD) as [m Hm].
  destruct (iterate_loop_terminates c d Hd0 m r1 r2 Hr1 Hsw2 Hm) as [st Hst].
  exists (S m), st. unfold iterate_run. now rewrite Hinit.
Qed.

Lemma iterate_run_exit (c : Corpus) (d : Q) (P : dict Q -> Prop) :
  (forall r r', keys r = keys c -> P r -> sweep c d r = Ok r' -> P r') ->
  P (tabulate (fun _ => 1 / len c) (keys c)) ->
  forall (fuel : nat) (st : loop_state),
    iterate_run fuel c d = Some (Ok st) ->
    keys (PageRank_of st) = keys c /\
    P (PageRank_of st) /\
    sweep c d (PageRank_of st) = Ok (new_PageRank_of st) /\
    changed (keys c) (PageRank_of st) (new_PageRank_of st) = false.
Proof.
  intros HP HP0 fuel st H.
  destruct (iterate_init_Ok c d) as [r1 [Hsw [Hinit Hr1]]].
  unfold iterate_run in H. rewrite Hinit in H.
  apply (iterate_loop_exit c d P HP fuel r1 st Hr1); [|assumption].
  apply (HP (tabulate (fun _ => 1 / len c) (keys c)) r1);
    [apply keys_tabulate | assumption | assumption].
Qed.

Lemma iterate_run_no_exception (c : Corpus) (d : Q) (fuel : nat) (e : exn) :
  iterate_run fuel c d <> Some (Raise e).
Proof.
  destruct (iterate_init_Ok c d) as [r1 [_ [Hinit Hr1]]].
  unfold iterate_run. rewrite Hinit. now apply iterate_loop_no_exception.
Qed.

Lemma iterate_pagerank_run (fuel : nat) (c : dict (list page)) (d : Q)
    (r : dict Q) :
  iterate_pagerank fuel c d = Some (Ok r) <->
  exists st, iterate_run fuel c d = Some (Ok st) /\ PageRank_of st = r.
Proof.
  unfold iterate_pagerank. destruct (iterate_run fuel c d) as [[st|e]|]; split.
  - intro H. injection H as <-. eauto.
  - intros [st' [H <-]]. now injection H as ->.
  - discriminate.
  - intros [st' [H _]]. discriminate.
  - discriminate.
  - intros [st' [H _]]. discriminate.
Qed.

Lemma iterate_pagerank_more_fuel (c : dict (list page)) (d : Q)
    (fuel fuel' : nat) (r : dict Q) :
  iterate_pagerank fuel c d = Some (Ok r) -> (fuel <= fuel')%nat ->
  iterate_pagerank fuel' c d = Some (Ok r).
Proof.
  intros H Hle. apply iterate_pagerank_run in H. destruct H as [st [H <-]].
  apply iterate_pagerank_run. exists st. split; [|reflexivity].
  unfold iterate_run in *. destruct (iterate_init c d); [|assumption].
  eapply iterate_loop_more_fuel; eassumption.
Qed.

(** The ranks of every page are in the table when the loop is left. *)
Lemma exit_lookup (c : Corpus) (d : Q) (st : loop_state) (p : page) :
  keys (PageRank_of st) = keys c ->
  sweep c d (PageRank_of st) = Ok (new_PageRank_of st) ->
  In p (keys c) ->
  dict_get (PageRank_of st) p = Some (rank (PageRank_of st) p) /\
  dict_get (new_PageRank_of st) p = Some (rank (new_PageRank_of st) p).
Proof.
  intros Hk Hsw Hp.
  destruct (sweep_keys c d _ _ Hk Hsw) as [Hk' _].
  assert (H1 : In p (keys (PageRank_of st))) by now rewrite Hk.
  assert (H2 : In p (keys (new_PageRank_of st))) by now rewrite Hk'.
  apply rank_getitem in H1, H2. now rewrite getitem_Ok in H1, H2.
Qed.

(** C3: for a corpus with the closure invariant and a damping factor in
    (0,1), [iterate_pagerank] returns a table, and every table it
    returns is a fixed point of the update equation to tolerance: one
    more sweep over it succeeds, stores for every page what [formula]
    returns on that table, which is the right-hand side of the update
    equation, and the rank of no page differs from it by 0.001 or
    more. *)
Theorem iterate_pagerank_fixed_point (c : Corpus) (d : Q) :
  closed c -> 0 < d < 1 ->
  (exists fuel r, iterate_pagerank fuel c d = Some (Ok r)) /\
  forall fuel r, iterate_pagerank fuel c d = Some (Ok r) ->
    keys r = keys c /\
    exists r',
      sweep c d r = Ok r' /\
      forall p, In p (keys c) ->
        exists x y,
          dict_get r p = Some x /\ dict_get r' p = Some y /\
          formula c d r p = Ok y /\
          y == next_rank c d r p /\
          Qabs (x - y) < 1 # 1000 /\
          Qabs (x - next_rank c d r p) < 1 # 1000.
Proof.
  intros _ [Hd0 Hd1]. split.
  - destruct (iterate_run_terminates c d) as [fuel [st Hst]]; [lra|].
    exists fuel, (PageRank_of st). apply iterate_pagerank_run. eauto.
  - intros fuel r H. apply iterate_pagerank_run in H.
    destruct H as [st [Hrun <-]].
    destruct (iterate_run_exit c d (fun _ => True)
                (fun _ _ _ _ _ => I) I fuel st Hrun) as [Hk [_ [Hsw Hch]]].
    split; [assumption|].
    exists (new_PageRank_of st). split; [assumption|].
    intros p Hp. destruct (exit_lookup c d st p Hk Hsw Hp) as [Hx Hy].
    destruct (sweep_keys c d _ _ Hk Hsw) as [_ Hv].
    destruct (Hv p Hp) as [Hf Hn].
    pose proof (proj1 (changed_false _ _ _) Hch p Hp) as Hlt.
    exists (rank (PageRank_of st) p), (rank (new_PageRank_of st) p).
    split; [assumption|]. split; [assumption|]. split; [assumption|].
    split; [assumption|]. split; [assumption|].
    now rewrite <- Hn.
Qed.

Lemma iterate_pagerank_fixed_point_witness :
  exists fuel r,
    iterate_pagerank fuel dangling_corpus (1 # 10) = Some (Ok r) /\
    Qabs (rank r page_A - next_rank dangling_corpus (1 # 10) r page_A)
    < 1 # 1000.
Proof.
  destruct (iterate_pagerank_fixed_point dangling_corpus (1 # 10))
    as [_ Hfix].
  - apply closedb_closed. reflexivity.
  - split; reflexivity.
  - exists 2%nat. eexists. split; [reflexivity|].
    destruct (Hfix 2%nat _ eq_refl) as [_ [r' [_ Hp]]].
    destruct (Hp page_A) as [x [y [Hx [_ [_ [_ [_ Hlt]]]]]]]; [now left|].
    injection Hx as <-. exact Hlt.
Defined.

(** C1 (amended): for a corpus with the closure invariant and a damping
    factor in (0,1), the loop of [iterate_pagerank] is left, in the
    sweep in which no page's rank changed by 0.001 or more, and the table
    returned is [PageRank]: the vector that last sweep started from, not
    the vector [new_PageRank] that the sweep computed. *)
Theorem iterate_pagerank_returns_previous (c : Corpus) (d : Q) :
  closed c -> 0 < d < 1 ->
  (exists fuel st, iterate_run fuel c d = Some (Ok st)) /\
  forall fuel st, iterate_run fuel c d = Some (Ok st) ->
    iterate_pagerank fuel c d = Some (Ok (PageRank_of st)) /\
    sweep c d (PageRank_of st) = Ok (new_PageRank_of st) /\
    changed (keys c) (PageRank_of st) (new_PageRank_of st) = false.
Proof.
  intros _ [Hd0 Hd1]. split.
  - apply iterate_run_terminates. lra.
  - intros fuel st Hrun.
    destruct (iterate_run_exit c d (fun _ => True)
                (fun _ _ _ _ _ => I) I fuel st Hrun) as [_ [_ [Hsw Hch]]].
    split; [|split; assumption].
    apply iterate_pagerank_run. eauto.
Qed.

Lemma iterate_pagerank_returns_previous_witness :
  exists fuel st, iterate_run fuel dangling_corpus (1 # 10) = Some (Ok st).
Proof.
  apply (iterate_pagerank_returns_previous dangling_corpus (1 # 10)).
  - apply closedb_closed. reflexivity.
  - split; reflexivity.
Defined.

(** C1 as stated fails: on [{A: {}, B: {A}}] with damping 1/10 the loop
    is left in its second sweep; that sweep computes a new rank for [A]
    that differs from the previous one (by less than 0.001), and the
    table returned holds the previous rank, not the new one. *)
Lemma iterate_pagerank_not_new_vector :
  exists st,
    iterate_run 2 dangling_corpus (1 # 10) = Some (Ok st) /\
    iterate_pagerank 2 dangling_corpus (1 # 10) = Some (Ok (PageRank_of st)) /\
    sweep dangling_corpus (1 # 10) (PageRank_of st) = Ok (new_PageRank_of st) /\
    changed (keys dangling_corpus) (PageRank_of st) (new_PageRank_of st) = false /\
    rank (PageRank_of st) page_A == 419 # 800 /\
    rank (new_PageRank_of st) page_A == 8381 # 16000.
Proof.
  eexists. split; [vm_compute; reflexivity|].
  repeat split; vm_compute; reflexivity.
Qed.

(** *** The sum of the ranks *)

Lemma sweep_total_one (c : Corpus) (d : Q) (r r' : dict Q) :
  closed c -> keys r = keys c -> total r == 1 -> sweep c d r = Ok r' ->
  total r' == 1.
Proof.
  intros Hcl Hr Ht Hsw. pose proof (Corpus_NoDup_keys c) as Hks.
  destruct (sweep_keys c d r r' Hr Hsw) as [Hr' Hv].
  assert (Hne : entries c <> []).
  { intro E. unfold total in Ht. destruct r; [discriminate Ht|].
    rewrite E in Hr. discriminate Hr. }
  rewrite total_sum_over by now rewrite Hr'.
  rewrite Hr'. rewrite (sum_over_ext _ _ (next_rank c d r))
    by (intros p Hp; apply Hv; assumption).
  rewrite next_rank_total by assumption.
  rewrite <- Hr at 1. rewrite <- total_sum_over by now rewrite Hr.
  rewrite Ht. ring.
Qed.

Lemma uniform_total (c : Corpus) :
  entries c <> [] -> total (tabulate (fun _ => 1 / len c) (keys c)) == 1.
Proof.
  intro Hne. pose proof (len_pos _ Hne).
  rewrite total_tabulate, sum_over_const, len_keys. field. lra.
Qed.

(** C5: for a corpus with the closure invariant and a damping factor in
    [0,1], a sweep over a rank vector that sums to 1 gives a vector that
    sums to 1; consequently every table [iterate_pagerank] returns on a
    corpus with a page sums to 1 (within 0.001), and below damping 1 it
    does return one.  (The empty corpus is outside the contract of the
    function: no rank vector over no pages sums to 1.) *)
Theorem sweep_preserves_total (c : Corpus) (d : Q) :
  closed c -> 0 <= d <= 1 ->
  (forall r, keys r = keys c -> total r == 1 ->
     exists r', sweep c d r = Ok r' /\ total r' == 1) /\
  (entries c <> [] ->
   (forall fuel r, iterate_pagerank fuel c d = Some (Ok r) ->
      total r == 1 /\ Qabs (total r - 1) <= 1 # 1000) /\
   (d < 1 -> exists fuel r, iterate_pagerank fuel c d = Some (Ok r))).
Proof.
  intros Hcl [Hd0 Hd1]. split; [|intro Hne; split].
  - intros r Hr Ht. destruct (sweep_total c d r Hr) as [r' Hsw].
    exists r'. split; [assumption|]. now apply (sweep_total_one c d r r').
  - intros fuel r H. apply iterate_pagerank_run in H.
    destruct H as [st [Hrun <-]].
    destruct (iterate_run_exit c d (fun r => total r == 1)
                (fun r r' Hk Ht Hs => sweep_total_one c d r r' Hcl Hk Ht Hs)
                (uniform_total c Hne) fuel st Hrun) as [_ [Ht _]].
    split; [assumption|]. rewrite Ht. discriminate.
  - intro Hlt. destruct (iterate_run_terminates c d) as [fuel [st Hst]];
      [split; assumption|].
    exists fuel, (PageRank_of st). apply iterate_pagerank_run. eauto.
Qed.

Lemma sweep_preserves_total_witness :
  exists fuel r,
    iterate_pagerank fuel dangling_corpus (17 # 20) = Some (Ok r) /\
    total r == 1.
Proof.
  destruct (sweep_preserves_total dangling_corpus (17 # 20)) as [_ Hret].
  - apply closedb_closed. reflexivity.
  - split; discriminate.
  - destruct Hret as [Hsum Hex]; [discriminate|].
    destruct Hex as [fuel [r Hr]]; [reflexivity|].
    exists fuel, r. split; [assumption|]. now apply (Hsum fuel r).
Defined.

(** ** The sweep is a simultaneous update *)

Lemma dict_get_update {V : Type} (other d : dict V) (p : page) :
  NoDup (keys other) ->
  dict_get (update d other) p =
  match dict_get other p with
  | Some v => Some v
  | None => dict_get d p
  end.
Proof.
  unfold update. revert d.
  induction other as [|[k v] t IH]; intros d Hnd; [reflexivity|].
  inversion Hnd as [|? ? Hk Ht]; subst. simpl fold_left.
  rewrite IH by assumption. simpl dict_get.
  destruct (String.eqb k p) eqn:E.
  - apply String.eqb_eq in E. subst p.
    apply dict_get_None in Hk. rewrite Hk. apply setitem_get_same.
  - apply String.eqb_neq in E.
    destruct (dict_get t p); [reflexivity|].
    now apply setitem_get_other.
Qed.

Lemma dict_get_update_tabulate {V : Type} (g : page -> V) (ks : list page)
    (d : dict V) (p : page) :
  NoDup ks ->
  (In p ks -> dict_get (update d (tabulate g ks)) p = Some (g p)) /\
  (~ In p ks -> dict_get (update d (tabulate g ks)) p = dict_get d p).
Proof.
  intro Hnd. rewrite dict_get_update by now rewrite keys_tabulate.
  split; intro Hp.
  - now rewrite dict_get_tabulate.
  - now rewrite dict_get_tabulate_None.
Qed.

Lemma update_keys_incl {V : Type} (other d : dict V) :
  incl (keys other) (keys d) -> keys (update d other) = keys d.
Proof.
  unfold update. revert d.
  induction other as [|[k v] t IH]; intros d Hincl; [reflexivity|].
  simpl fold_left.
  assert (Hk : keys (setitem d k v) = keys d)
    by (apply setitem_keys_in, Hincl; now left).
  rewrite IH; [assumption|].
  rewrite Hk. intros q Hq. apply Hincl. now right.
Qed.

(** Writing a tabulation over the keys of a table into that table gives
    the tabulation in the order of the table, whatever the order in
    which it was built. *)
Lemma update_tabulate_order (g : page -> Q) (order : list page) (r : dict Q) :
  NoDup (keys r) -> Permutation order (keys r) ->
  update r (tabulate g order) = tabulate g (keys r).
Proof.
  intros Hnd Hperm.
  assert (Hord : NoDup order)
    by (eapply Permutation_NoDup; [apply Permutation_sym|]; eassumption).
  assert (Hk : keys (update r (tabulate g order)) = keys r).
  { apply update_keys_incl. rewrite keys_tabulate.
    intros q Hq. eapply Permutation_in; eassumption. }
  rewrite (tabulate_rank (update r (tabulate g order))) by now rewrite Hk.
  rewrite Hk. apply tabulate_ext. intros k Hin. unfold rank.
  rewrite (proj1 (dict_get_update_tabulate g order r k Hord)); [reflexivity|].
  eapply Permutation_in; [apply Permutation_sym|]; eassumption.
Qed.

(** A sweep whose pages are evaluated in another order builds the same
    mapping, and the same table once written over the previous one. *)
Lemma sweep_in_order (c : Corpus) (d : Q) (order : list page)
    (r fresh : dict Q) :
  keys r = keys c -> sweep c d r = Ok fresh -> Permutation order (keys c) ->
  exists fresh',
    sweep_in order c d r = Ok fresh' /\
    (forall p, dict_get fresh' p = dict_get fresh p) /\
    update r fresh' = fresh.
Proof.
  intros Hr Hsw Hperm. pose proof (Corpus_NoDup_keys c) as Hks.
  destruct (sweep_keys c d r fresh Hr Hsw) as [Hk Hv].
  assert (Hord : NoDup order)
    by (eapply Permutation_NoDup; [apply Permutation_sym|]; eassumption).
  assert (Hfresh : fresh = tabulate (rank fresh) (keys c))
    by (rewrite <- Hk; apply tabulate_rank; now rewrite Hk).
  exists (tabulate (rank fresh) order). split; [|split].
  - unfold sweep_in. apply comprehension_tabulate; [assumption|].
    intros k Hin. apply Hv. eapply Permutation_in; eassumption.
  - intro p. rewrite Hfresh at 2.
    destruct (in_dec string_dec p (keys c)) as [Hp | Hp].
    + rewrite !dict_get_tabulate; [reflexivity | assumption |].
      eapply Permutation_in; [apply Permutation_sym|]; eassumption.
    + rewrite !dict_get_tabulate_None; [reflexivity | assumption |].
      intro H. apply Hp. eapply Permutation_in; eassumption.
  - rewrite update_tabulate_order by (rewrite Hr; assumption).
    rewrite Hr. now symmetry.
Qed.

Lemma iterate_loop_in_order (c : Corpus) (d : Q) (order : list page) :
  Permutation order (keys c) ->
  forall (fuel : nat) (r : dict Q),
    keys r = keys c ->
    iterate_loop_in order fuel c d r = iterate_loop fuel c d r.
Proof.
  intro Hperm. pose proof (Corpus_NoDup_keys c) as Hks.
  induction fuel as [|fuel IH]; intros r Hr; [reflexivity|].
  destruct (sweep_total c d r Hr) as [fresh Hsw].
  destruct (sweep_keys c d r fresh Hr Hsw) as [Hk _].
  destruct (sweep_in_order c d order r fresh Hr Hsw Hperm)
    as [fresh' [Hsw' [_ Hup]]].
  cbn [iterate_loop_in iterate_loop]. rewrite Hsw, Hsw', Hup.
  rewrite update_same_keys by (rewrite ?Hr, ?Hk; (reflexivity || assumption)).
  destruct (any_change r fresh (keys c)) as [[|]|]; try reflexivity.
  now apply IH.
Qed.

(** C8: every turn of the loop of [iterate_pagerank] is a simultaneous
    update.  The loop is entered with a table over the pages of the
    corpus, and a turn that starts from such a table [PageRank] computes
    a table [fresh] over the same pages in which the rank of every page
    is what [formula] returns on [PageRank], the right-hand side of the
    update equation evaluated on the ranks of [PageRank] alone;
    [new_PageRank] becomes exactly [fresh], and the loop either goes on
    from [fresh] or is left with [PageRank] and [fresh].  Evaluating the
    pages of the sweep in any other order builds the same mapping and
    leaves the same table in [new_PageRank], so the loop runs
    identically. *)
Theorem sweep_simultaneous (c : Corpus) (d : Q) :
  (exists new_PageRank,
     iterate_init c d = Ok new_PageRank /\ keys new_PageRank = keys c) /\
  forall PageRank, keys PageRank = keys c ->
    exists fresh,
      sweep c d PageRank = Ok fresh /\
      update PageRank fresh = fresh /\
      keys fresh = keys c /\
      (forall p, In p (keys c) ->
         formula c d PageRank p = Ok (rank fresh p) /\
         rank fresh p == next_rank c d PageRank p /\
         dict_get fresh p = Some (rank fresh p)) /\
      (forall fuel,
         iterate_loop (S fuel) c d PageRank =
         if changed (keys c) PageRank fresh
         then iterate_loop fuel c d fresh
         else Some (Ok (mkState PageRank fresh))) /\
      (forall order, Permutation order (keys c) ->
         (exists fresh',
            sweep_in order c d PageRank = Ok fresh' /\
            (forall p, dict_get fresh' p = dict_get fresh p) /\
            update PageRank fresh' = fresh) /\
         forall fuel,
           iterate_loop_in order fuel c d PageRank =
           iterate_loop fuel c d PageRank).
Proof.
  pose proof (Corpus_NoDup_keys c) as Hks. split.
  - destruct (iterate_init_Ok c d) as [r1 [_ [Hinit Hr1]]]. eauto.
  - intros PageRank Hr.
    destruct (sweep_total c d PageRank Hr) as [fresh Hsw].
    destruct (sweep_keys c d PageRank fresh Hr Hsw) as [Hk Hv].
    exists fresh. split; [assumption|]. split.
    { apply update_same_keys; rewrite ?Hr, Hk; (reflexivity || assumption). }
    split; [assumption|]. split; [|split].
    + intros p Hp. destruct (Hv p Hp) as [Hf Hn].
      split; [assumption|]. split; [assumption|].
      assert (Hin : In p (keys fresh)) by now rewrite Hk.
      apply rank_getitem in Hin. now rewrite getitem_Ok in Hin.
    + intro fuel. now apply iterate_loop_step.
    + intros order Hperm. split.
      * now apply sweep_in_order.
      * intro fuel. now apply iterate_loop_in_order.
Qed.

Lemma sweep_simultaneous_witness :
  exists fresh fresh',
    sweep pair_corpus (17 # 20) [(page_A, 1 # 3); (page_B, 2 # 3)] = Ok fresh /\
    rank fresh page_A ==
      next_rank pair_corpus (17 # 20) [(page_A, 1 # 3); (page_B, 2 # 3)] page_A /\
    sweep_in [page_B; page_A] pair_corpus (17 # 20)
      [(page_A, 1 # 3); (page_B, 2 # 3)] = Ok fresh' /\
    update [(page_A, 1 # 3); (page_B, 2 # 3)] fresh' = fresh /\
    iterate_loop_in [page_B; page_A] 3 pair_corpus (17 # 20)
      [(page_A, 1 # 3); (page_B, 2 # 3)] =
    iterate_loop 3 pair_corpus (17 # 20) [(page_A, 1 # 3); (page_B, 2 # 3)].
Proof.
  destruct (sweep_simultaneous pair_corpus (17 # 20)) as [_ Hturn].
  destruct (Hturn [(page_A, 1 # 3); (page_B, 2 # 3)])
    as [fresh [Hsw [_ [_ [Hv [_ Hord]]]]]]; [reflexivity|].
  destruct (Hord [page_B; page_A]) as [[fresh' [Hsw' [_ Hup]]] Hloop];
    [apply perm_swap|].
  exists fresh, fresh'. split; [assumption|].
  split; [apply Hv; now left|]. split; [assumption|].
  split; [assumption | apply Hloop].
Defined.

(** ** Termination *)

Lemma chain_next_rank (r : dict Q) :
  next_rank chain_corpus 1 r page_A == 0 /\
  next_rank chain_corpus 1 r page_B == rank r page_A + rank r page_C /\
  next_rank chain_corpus 1 r page_C == rank r page_B.
Proof.
  unfold next_rank.
  change (keys chain_corpus) with [page_A; page_B; page_C].
  rewrite !sum_over_cons. sum_nil.
  change (inject_Z (Z.of_nat (List.length chain_corpus))) with (3 # 1).
  replace (weight chain_corpus page_A page_A) with 0 by reflexivity.
  replace (weight chain_corpus page_A page_B) with 0 by reflexivity.
  replace (weight chain_corpus page_A page_C) with 0 by reflexivity.
  replace (weight chain_corpus page_B page_A) with 1 by reflexivity.
  replace (weight chain_corpus page_B page_B) with 0 by reflexivity.
  replace (weight chain_corpus page_B page_C) with 1 by reflexivity.
  replace (weight chain_corpus page_C page_A) with 0 by reflexivity.
  replace (weight chain_corpus page_C page_B) with 1 by reflexivity.
  replace (weight chain_corpus page_C page_C) with 0 by reflexivity.
  repeat split; field.
Qed.

Lemma oscillating_sweep (r r' : dict Q) :
  oscillating r -> sweep chain_corpus 1 r = Ok r' ->
  oscillating r' /\ changed (keys chain_corpus) r r' = true.
Proof.
  intros [Hk [HA HBC]] Hsw.
  destruct (sweep_keys chain_corpus 1 r r' Hk Hsw) as [Hk' Hv].
  destruct (chain_next_rank r) as [NA [NB NC]].
  assert (HA' : rank r' page_A == 0)
    by (rewrite (proj2 (Hv page_A ltac:(now left))); exact NA).
  assert (HB' : rank r' page_B == rank r page_A + rank r page_C)
    by (rewrite (proj2 (Hv page_B ltac:(right; now left))); exact NB).
  assert (HC' : rank r' page_C == rank r page_B)
    by (rewrite (proj2 (Hv page_C ltac:(right; right; now left))); exact NC).
  split.
  - split; [assumption|]. split; [assumption|].
    destruct HBC as [[HB HC] | [HB HC]]; [right | left]; split; lra.
  - destruct (changed (keys chain_corpus) r r') eqn:E; [reflexivity|].
    pose proof (proj1 (changed_false _ _ _) E page_B ltac:(right; now left))
      as Hlt.
    apply Qabs_diff_Qlt_condition in Hlt.
    destruct HBC as [[HB HC] | [HB HC]]; lra.
Qed.

Lemma chain_loop_forever (fuel : nat) :
  forall r, oscillating r -> iterate_loop fuel chain_corpus 1 r = None.
Proof.
  induction fuel as [|fuel IH]; intros r Hr; [reflexivity|].
  pose proof (proj1 Hr) as Hk.
  destruct (sweep_total chain_corpus 1 r Hk) as [r' Hsw].
  destruct (oscillating_sweep r r' Hr Hsw) as [Hr' Hch].
  rewrite (iterate_loop_step chain_corpus 1 fuel r r' Hk Hsw (proj1 Hr')).
  rewrite Hch. now apply IH.
Qed.

Lemma chain_init_oscillating :
  exists r1, iterate_init chain_corpus 1 = Ok r1 /\ oscillating r1.
Proof.
  destruct (iterate_init_Ok chain_corpus 1) as [r1 [Hsw [Hinit Hk1]]].
  exists r1. split; [assumption|].
  set (r0 := tabulate (fun _ => 1 / len chain_corpus) (keys chain_corpus)) in *.
  destruct (sweep_keys chain_corpus 1 r0 r1 (keys_tabulate _ _) Hsw) as [_ Hv].
  destruct (chain_next_rank r0) as [NA [NB NC]].
  assert (H0 : forall p, In p (keys chain_corpus) -> rank r0 p == 1 # 3)
    by (intros p Hp; unfold r0; rewrite rank_tabulate by assumption; reflexivity).
  split; [assumption|]. split; [|left; split].
  - rewrite (proj2 (Hv page_A ltac:(now left))). exact NA.
  - rewrite (proj2 (Hv page_B ltac:(right; now left))), NB.
    rewrite (H0 page_A), (H0 page_C); [reflexivity | |]; simpl; tauto.
  - rewrite (proj2 (Hv page_C ltac:(right; right; now left))), NC.
    rewrite (H0 page_B); [reflexivity|]. simpl; tauto.
Qed.

(** C6 as stated fails: the loop has no cap.  On [{A: {B}, B: {C},
    C: {B}}] with damping 1 the ranks of [B] and [C] swap between 2/3 and
    1/3 in every sweep, so no number of sweeps ends the loop: the run
    neither returns a table nor reports anything. *)
Lemma iterate_pagerank_unbounded :
  ~ exists fuel, iterate_pagerank fuel chain_corpus 1 <> None.
Proof.
  intros [fuel H]. apply H.
  destruct chain_init_oscillating as [r1 [Hinit Hosc]].
  unfold iterate_pagerank, iterate_run. rewrite Hinit.
  now rewrite chain_loop_forever.
Qed.

Lemma iterate_pagerank_no_exception (c : Corpus) (d : Q) (fuel : nat) (e : exn) :
  iterate_pagerank fuel c d <> Some (Raise e).
Proof.
  unfold iterate_pagerank.
  pose proof (iterate_run_no_exception c d fuel) as H.
  destruct (iterate_run fuel c d) as [[st|e']|]; [discriminate | | discriminate].
  intro E. injection E as ->. now apply (H e).
Qed.

(** C6 (amended): the loop of [iterate_pagerank] has no iteration cap
    and no non-convergence outcome: a run either returns a table or is
    still sweeping, and never raises.  For a damping factor in [[0,1)]
    some number of sweeps ends the loop on every corpus, and any larger
    number of sweeps allowed gives the same table. *)
Theorem iterate_pagerank_terminates (c : Corpus) (d : Q) :
  (forall fuel, iterate_pagerank fuel c d = None \/
                exists r, iterate_pagerank fuel c d = Some (Ok r)) /\
  (0 <= d < 1 ->
   exists fuel r,
     iterate_pagerank fuel c d = Some (Ok r) /\
     forall fuel', (fuel <= fuel')%nat ->
       iterate_pagerank fuel' c d = Some (Ok r)).
Proof.
  split.
  - intro fuel. pose proof (iterate_pagerank_no_exception c d fuel) as H.
    destruct (iterate_pagerank fuel c d) as [[r|e]|]; [eauto | | now left].
    exfalso. now apply (H e).
  - intro Hd. destruct (iterate_run_terminates c d Hd) as [fuel [st Hst]].
    assert (H : iterate_pagerank fuel c d = Some (Ok (PageRank_of st)))
      by (apply iterate_pagerank_run; eauto).
    exists fuel, (PageRank_of st). split; [assumption|].
    intros fuel' Hle. eapply iterate_pagerank_more_fuel; eassumption.
Qed.

Lemma iterate_pagerank_terminates_witness :
  exists fuel r,
    iterate_pagerank fuel chain_corpus (17 # 20) = Some (Ok r) /\
    forall fuel', (fuel <= fuel')%nat ->
      iterate_pagerank fuel' chain_corpus (17 # 20) = Some (Ok r).
Proof.
  apply (iterate_pagerank_terminates chain_corpus (17 # 20)).
  split; [discriminate | reflexivity].
Defined.

(** ** Violated preconditions *)

(** C7 (amended): [transition_model] fails at once with [KeyError] when
    the page is not a key of the corpus (so also on an empty corpus), and
    [sample_pagerank] fails at once with [IndexError] on an empty corpus.
    [iterate_pagerank] on an empty corpus returns the empty table, and
    the damping factor is not checked: on a corpus with the closure
    invariant, whatever the damping factor is, [transition_model]
    returns a table for every page of the corpus and [iterate_pagerank]
    never raises, and with the damping factor 2, outside [0,1],
    [sample_pagerank] returns a table (for a non-empty corpus and
    [n >= 1]). *)
Theorem contract_violations :
  (forall (c : dict (list page)) (pg : page) (d : Q),
     ~ In pg (keys c) -> transition_model c pg d = Raise KeyError) /\
  (forall (d : Q) (n : nat) (rnd : draws),
     sample_pagerank [] d n rnd = Raise IndexError) /\
  (forall (d : Q) (fuel : nat),
     iterate_pagerank (S fuel) [] d = Some (Ok [])) /\
  (forall (c : Corpus),
     closed c ->
     (forall d pg, In pg (keys c) ->
        exists dist, transition_model c pg d = Ok dist) /\
     (forall d fuel e, iterate_pagerank fuel c d <> Some (Raise e)) /\
     (entries c <> [] ->
      forall n rnd, (1 <= n)%nat ->
        exists t, sample_pagerank c (2 # 1) n rnd = Ok t)).
Proof.
  split; [|split; [|split]].
  - intros c pg d Hpg. unfold transition_model.
    now rewrite getitem_missing.
  - reflexivity.
  - reflexivity.
  - intros c Hcl. split; [|split].
    + intros d pg Hpg. destruct (dict_get_some c pg Hpg) as [links Hlinks].
      eexists. apply (transition_model_Ok c pg links d Hlinks).
      now apply (closed_links c pg).
    + intros d fuel e. apply iterate_pagerank_no_exception.
    + intros Hne n rnd Hn.
      destruct (sample_pagerank_run c (2 # 1) n rnd Hcl Hne Hn)
        as [t [counts [pg0 [pg [k [_ [_ [Hs _]]]]]]]].
      eauto.
Qed.

Lemma contract_violations_witness :
  transition_model pair_corpus page_Z (17 # 20) = Raise KeyError /\
  (exists dist, transition_model pair_corpus page_A (2 # 1) = Ok dist) /\
  exists t, sample_pagerank pair_corpus (2 # 1) 3 fixed_draws = Ok t.
Proof.
  destruct contract_violations as [Hkey [_ [_ Hdamp]]]. split.
  - apply Hkey. simpl. intros [H | [H | H]]; [discriminate H | discriminate H | exact H].
  - destruct (Hdamp pair_corpus) as [Htm [_ Hsample]].
    + apply closedb_closed. reflexivity.
    + split; [apply Htm; now left|].
      apply Hsample; [discriminate | lia].
Defined.

(** C7 as stated fails: a damping factor of 2 is outside [0,1], yet
    [transition_model] returns a table (with a negative entry),
    [sample_pagerank] returns a table and [iterate_pagerank] returns a
    table; and on the empty corpus [iterate_pagerank] returns the empty
    table instead of failing. *)
Lemma out_of_contract_results :
  ~ (0 <= 2 # 1 <= 1) /\
  transition_model pair_corpus page_A (2 # 1) =
    Ok [(page_A, - 1 # 2); (page_B, 3 # 2)] /\
  sample_pagerank pair_corpus (2 # 1) 2 fixed_draws =
    Ok [(page_A, 1 # 2); (page_B, 1 # 2)] /\
  iterate_pagerank 1 single_corpus (2 # 1) = Some (Ok [(page_A, 1)]) /\
  iterate_pagerank 1 empty_corpus (17 # 20) = Some (Ok []).
Proof.
  split; [intros [_ H]; apply H; reflexivity|].
  repeat split; vm_compute; reflexivity.
Qed.

(** * Further properties of the code *)

(** ** transition_model: failure, dangling pages, extreme damping *)

Lemma add_linked_KeyError (ps : list page) (v : Q) (pd : dict Q) :
  (exists p, In p ps /\ ~ In p (keys pd)) ->
  add_linked ps v pd = Raise KeyError.
Proof.
  revert pd. induction ps as [|p0 t IH]; intros pd [p [Hin Hp]];
    [destruct Hin|].
  simpl. unfold getitem. destruct (dict_get pd p0) as [x|] eqn:E;
    [|reflexivity].
  simpl. apply IH. exists p.
  assert (Hp0 : In p0 (keys pd)) by (eapply dict_get_keys; eassumption).
  rewrite setitem_keys_in by assumption. split; [|assumption].
  destruct Hin as [-> | Hin]; [contradiction | assumption].
Qed.

Lemma missing_link (links ks : list page) :
  incl links ks \/ exists p, In p links /\ ~ In p ks.
Proof.
  induction links as [|l t IH]; [left; intros p []|].
  destruct (in_dec string_dec l ks) as [Hl | Hl].
  - destruct IH as [IH | [p [Hp Hn]]].
    + left. intros p [<- | Hp]; [assumption | now apply IH].
    + right. exists p. split; [now right | assumption].
  - right. exists l. split; [now left | assumption].
Qed.

(** X1: for a page of the corpus, [transition_model] returns a table
    exactly when every link of the page is a page of the corpus; it
    raises [KeyError] otherwise, and never another exception. *)
Theorem transition_model_succeeds_iff (c : Corpus) (pg : page) (d : Q) :
  ((exists dist, transition_model c pg d = Ok dist) <->
   (exists links, dict_get c pg = Some links /\ incl links (keys c))) /\
  (forall e, transition_model c pg d = Raise e -> e = KeyError).
Proof.
  split; [|apply transition_model_raises]. split.
  - intros [dist H]. unfold transition_model, getitem in H.
    destruct (dict_get c pg) as [links|] eqn:Hget; [|discriminate].
    exists links. split; [reflexivity|].
    destruct (missing_link links (keys c)) as [Hincl | Hmiss]; [assumption|].
    exfalso. simpl in H.
    assert (Hne : entries c <> [])
      by (destruct (entries c); [discriminate | congruence]).
    assert (Hl : links <> [])
      by (intro E; subst links; destruct Hmiss as [p [[] _]]).
    pose proof Hl as Hl'. apply is_empty_false in Hl'. rewrite Hl' in H.
    rewrite pydiv_len in H by assumption. simpl in H.
    rewrite pydiv_len in H by assumption. simpl in H.
    rewrite add_linked_KeyError in H; [discriminate|].
    rewrite assign_all_tabulate by apply Corpus_NoDup_keys.
    rewrite (keys_tabulate (fun _ : page => (1 - d) / len c)). exact Hmiss.
  - intros [links [Hget Hincl]]. eexists.
    now apply (transition_model_Ok c pg links d).
Qed.

Lemma keys_saturate (c : dict (list page)) : keys (saturate c) = keys c.
Proof.
  unfold saturate, keys. rewrite map_map. simpl. reflexivity.
Qed.

Lemma len_saturate (c : dict (list page)) : len (saturate c) = len c.
Proof.
  unfold len, saturate. now rewrite length_map.
Qed.

Lemma dict_get_map_values {V W : Type} (h : V -> W) (t : dict V) (k : page) :
  dict_get (map (fun e => (fst e, h (snd e))) t) k =
  option_map h (dict_get t k).
Proof.
  induction t as [|[k0 v0] t IH]; [reflexivity|].
  simpl. destruct (String.eqb k0 k); [reflexivity | exact IH].
Qed.

Lemma dict_get_saturate (c : dict (list page)) (k : page) :
  dict_get (saturate c) k =
  option_map (fun li => if is_empty li then keys c else li) (dict_get c k).
Proof.
  unfold saturate.
  apply (dict_get_map_values (fun li => if is_empty li then keys c else li)).
Qed.

Lemma well_formed_saturate (c : Corpus) : well_formed (saturate c) = true.
Proof.
  unfold well_formed. rewrite keys_saturate.
  apply andb_true_iff. split.
  - apply nodupb_NoDup, Corpus_NoDup_keys.
  - apply forallb_forall. intros [k li] Hin. unfold saturate in Hin.
    apply in_map_iff in Hin. destruct Hin as [[k0 l0] [Heq Hin]].
    simpl in Heq. injection Heq as <- <-. simpl.
    apply nodupb_NoDup. destruct (is_empty l0).
    + apply Corpus_NoDup_keys.
    + eapply Corpus_NoDup_links. eassumption.
Qed.

Lemma closed_saturate (c : dict (list page)) : closed c -> closed (saturate c).
Proof.
  intros Hcl i li p Hin Hp. rewrite keys_saturate. unfold saturate in Hin.
  apply in_map_iff in Hin. destruct Hin as [[k0 l0] [Heq Hin]].
  simpl in Heq. injection Heq as <- <-.
  destruct (is_empty l0); [assumption | eapply Hcl; eassumption].
Qed.

Lemma rank_tabulate_missing (g : page -> Q) (ks : list page) (k : page) :
  ~ In k ks -> rank (tabulate g ks) k = 0.
Proof.
  intro H. unfold rank. now rewrite dict_get_tabulate_None.
Qed.

(** The values of [transition_model] do not change when the pages
    without links are given links to every page. *)
Lemma transition_value_saturate (c : dict (list page)) (links : list page)
    (d : Q) (p : page) :
  c <> [] -> In p (keys c) ->
  transition_value (saturate c)
    (if is_empty links then keys c else links) d p ==
  transition_value c links d p.
Proof.
  intros Hne Hp. unfold transition_value. rewrite len_saturate.
  pose proof (len_pos c Hne) as HN.
  destruct (is_empty links) eqn:E.
  - assert (Hk : is_empty (keys c) = false)
      by (destruct (keys c); [destruct Hp | reflexivity]).
    rewrite Hk. apply mem_In in Hp. rewrite Hp, len_keys. field. lra.
  - rewrite E. reflexivity.
Qed.

(** X2: the dangling-page policy of [transition_model]: on a corpus
    with the closure invariant, the table for any page of the corpus
    holds the same probabilities as on the corpus in which every page
    without links links to every page, itself included. *)
Theorem transition_model_dangling_policy (c : Corpus) (pg : page) (d : Q) :
  closed c -> In pg (keys c) ->
  exists t t',
    transition_model c pg d = Ok t /\
    transition_model (saturate c) pg d = Ok t' /\
    keys t' = keys t /\
    forall p, rank t' p == rank t p.
Proof.
  intros Hcl Hpg. destruct (dict_get_some c pg Hpg) as [links Hget].
  assert (Hne : entries c <> []) by (intro E; rewrite E in Hget; discriminate).
  set (c' := mkCorpus (saturate c) (well_formed_saturate c)).
  assert (Hget' : dict_get c' pg = Some (if is_empty links then keys c else links))
    by (simpl; now rewrite dict_get_saturate, Hget).
  exists (tabulate (transition_value c links d) (keys c)),
    (tabulate (transition_value c'
                 (if is_empty links then keys c else links) d) (keys c')).
  split; [apply transition_model_Ok;
          [assumption | now apply (closed_links c pg)]|].
  split.
  - apply (transition_model_Ok c' pg _ d Hget').
    apply (closed_links c' pg); [apply closed_saturate|]; assumption.
  - rewrite !keys_tabulate. split; [apply keys_saturate|].
    intro p. simpl. rewrite keys_saturate.
    destruct (in_dec string_dec p (keys c)) as [Hp | Hp].
    + rewrite !rank_tabulate by assumption.
      now apply transition_value_saturate.
    + rewrite !rank_tabulate_missing by assumption. reflexivity.
Qed.

Lemma transition_model_dangling_policy_witness :
  exists t t',
    transition_model dangling_corpus page_A (17 # 20) = Ok t /\
    transition_model (saturate dangling_corpus) page_A (17 # 20) = Ok t' /\
    keys t' = keys t /\
    forall p, rank t' p == rank t p.
Proof.
  apply (transition_model_dangling_policy dangling_corpus page_A (17 # 20)).
  - apply closedb_closed. reflexivity.
  - now left.
Defined.

(** X3: extreme damping factors.  With damping 0 every page gets
    [1/|corpus|] whatever the links are; with damping 1 a page with
    links gives [1/|links|] to each linked page and 0 to every other
    page. *)
Theorem transition_model_extreme_damping
    (c : Corpus) (pg : page) (links : list page) :
  closed c -> dict_get c pg = Some links ->
  (exists t,
     transition_model c pg 0 = Ok t /\
     forall p, In p (keys c) -> rank t p == 1 / len c) /\
  (links <> [] ->
   exists t,
     transition_model c pg 1 = Ok t /\
     forall p, In p (keys c) ->
       rank t p == if mem p links then 1 / len links else 0).
Proof.
  intros Hcl Hget.
  pose proof (closed_links c pg links Hcl Hget) as Hincl.
  assert (Hne : entries c <> [])
    by (destruct (entries c); [discriminate | congruence]).
  pose proof (len_pos _ Hne) as HN.
  split.
  - exists (tabulate (transition_value c links 0) (keys c)).
    split; [now apply transition_model_Ok|].
    intros p Hp. rewrite rank_tabulate by assumption.
    unfold transition_value. destruct (is_empty links) eqn:E; [reflexivity|].
    apply is_empty_false in E. pose proof (len_pos _ E).
    destruct (mem p links); field; lra.
  - intro Hl. exists (tabulate (transition_value c links 1) (keys c)).
    split; [now apply transition_model_Ok|].
    intros p Hp. rewrite rank_tabulate by assumption.
    unfold transition_value. pose proof (len_pos _ Hl).
    apply is_empty_false in Hl. rewrite Hl.
    destruct (mem p links); field; lra.
Qed.

Lemma transition_model_extreme_damping_witness :
  exists t,
    transition_model pair_corpus page_A 1 = Ok t /\
    forall p, In p (keys pair_corpus) ->
      rank t p == if mem p [page_B] then 1 / len [page_B] else 0.
Proof.
  destruct (transition_model_extreme_damping pair_corpus page_A [page_B])
    as [_ H].
  - apply closedb_closed. reflexivity.
  - reflexivity.
  - apply H. discriminate.
Defined.

(** ** formula: agreement with transition_model, dangling pages *)

Lemma transition_value_share (c : dict (list page)) (links : list page)
    (d : Q) (p : page) :
  c <> [] ->
  transition_value c links d p == (1 - d) / len c + d * share c p links.
Proof.
  intro Hne. pose proof (len_pos c Hne) as HN.
  unfold transition_value, share. destruct (is_empty links) eqn:E.
  - field. lra.
  - apply is_empty_false in E. pose proof (len_pos _ E).
    destruct (mem p links); field; lra.
Qed.

Lemma transition_prob_weight (c : Corpus) (d : Q) (i p : page) :
  closed c -> In i (keys c) -> In p (keys c) ->
  transition_prob c d i p == (1 - d) / len c + d * weight c p i.
Proof.
  intros Hcl Hi Hp. destruct (dict_get_some c i Hi) as [links Hget].
  unfold transition_prob, weight.
  rewrite (transition_model_Ok c i links d Hget)
    by now apply (closed_links c i).
  rewrite Hget, rank_tabulate by assumption.
  apply transition_value_share. intro E. rewrite E in Hget. discriminate.
Qed.

(** X4: the two estimators agree on the chain they describe.  On a
    corpus with the closure invariant and a rank vector that sums to 1,
    [formula] for a page is the sum, over every page [i], of the rank of
    [i] times the probability [transition_model] gives to the move from
    [i] to that page. *)
Theorem formula_pushes_transition_model
    (c : Corpus) (d : Q) (r : dict Q) (p : page) :
  closed c -> keys r = keys c -> total r == 1 -> In p (keys c) ->
  exists v,
    formula c d r p = Ok v /\
    v == sum_over (keys c) (fun i => rank r i * transition_prob c d i p).
Proof.
  intros Hcl Hr Ht Hp.
  assert (Hne : entries c <> []) by (intro E; rewrite E in Hp; destruct Hp).
  destruct (formula_Ok c d r p Hne) as [v [Hv Heq]];
    [rewrite Hr; apply incl_refl|].
  exists v. split; [assumption|]. rewrite Heq. unfold next_rank.
  assert (Hsum : sum_over (keys c) (rank r) == 1).
  { rewrite <- Hr, <- total_sum_over; [assumption|].
    rewrite Hr. apply Corpus_NoDup_keys. }
  rewrite (sum_over_ext _
             (fun i => rank r i * transition_prob c d i p)
             (fun i => (1 - d) / len c * rank r i +
                       d * (rank r i * weight c p i))).
  - rewrite sum_over_plus, !sum_over_scale, Hsum. ring.
  - intros i Hi. rewrite transition_prob_weight by assumption. ring.
Qed.

Lemma formula_pushes_transition_model_witness :
  exists v,
    formula dangling_corpus (17 # 20) [(page_A, 3 # 4); (page_B, 1 # 4)] page_A
      = Ok v /\
    v == sum_over (keys dangling_corpus)
           (fun i => rank [(page_A, 3 # 4); (page_B, 1 # 4)] i *
                     transition_prob dangling_corpus (17 # 20) i page_A).
Proof.
  apply (formula_pushes_transition_model dangling_corpus (17 # 20)
           [(page_A, 3 # 4); (page_B, 1 # 4)] page_A).
  - apply closedb_closed. reflexivity.
  - reflexivity.
  - reflexivity.
  - now left.
Defined.

Lemma weight_saturate (c : dict (list page)) (p i : page) :
  In p (keys c) -> weight (saturate c) p i == weight c p i.
Proof.
  intro Hp. unfold weight. rewrite dict_get_saturate.
  destruct (dict_get c i) as [li|]; simpl; [|reflexivity].
  unfold share. rewrite len_saturate. destruct (is_empty li) eqn:E.
  - assert (Hk : is_empty (keys c) = false)
      by (destruct (keys c); [destruct Hp | reflexivity]).
    rewrite Hk. apply mem_In in Hp. rewrite Hp, len_keys. reflexivity.
  - rewrite E. reflexivity.
Qed.

(** X5: the dangling-page policy of [formula]: for a rank table that
    holds every page of the corpus, [formula] gives a page the same new
    rank as on the corpus in which every page without links links to
    every page, itself included. *)
Theorem formula_dangling_policy (c : Corpus) (d : Q) (r : dict Q) (p : page) :
  incl (keys c) (keys r) -> In p (keys c) ->
  exists v v',
    formula c d r p = Ok v /\
    formula (saturate c) d r p = Ok v' /\
    v' == v.
Proof.
  intros Hr Hp.
  assert (Hne : entries c <> []) by (intro E; rewrite E in Hp; destruct Hp).
  assert (Hne' : saturate c <> [])
    by (unfold saturate; destruct (entries c); [congruence | discriminate]).
  destruct (formula_Ok c d r p Hne Hr) as [v [Hv Heq]].
  destruct (formula_Ok (saturate c) d r p Hne') as [v' [Hv' Heq']];
    [now rewrite keys_saturate|].
  exists v, v'. split; [assumption|]. split; [assumption|].
  rewrite Heq, Heq'. unfold next_rank.
  rewrite len_saturate, keys_saturate.
  rewrite (sum_over_ext _ (fun i => rank r i * weight (saturate c) p i)
             (fun i => rank r i * weight c p i));
    [reflexivity|].
  intros i _. now rewrite weight_saturate.
Qed.

Lemma formula_dangling_policy_witness :
  exists v v',
    formula dangling_corpus (17 # 20) [(page_A, 3 # 4); (page_B, 1 # 4)] page_B
      = Ok v /\
    formula (saturate dangling_corpus) (17 # 20)
      [(page_A, 3 # 4); (page_B, 1 # 4)] page_B = Ok v' /\
    v' == v.
Proof.
  apply (formula_dangling_policy dangling_corpus (17 # 20)
           [(page_A, 3 # 4); (page_B, 1 # 4)] page_B).
  - apply incl_refl.
  - right. now left.
Defined.

(** ** iterate_pagerank: range of the ranks, number of sweeps *)

Lemma next_rank_lower (c : dict (list page)) (d : Q) (r : dict Q) (p : page) :
  0 <= d -> (forall i, In i (keys c) -> 0 <= rank r i) ->
  (1 - d) / len c <= next_rank c d r p.
Proof.
  intros Hd Hr. unfold next_rank.
  assert (0 <= sum_over (keys c) (fun i => rank r i * weight c p i)).
  { apply sum_over_nonneg. intros i Hi.
    apply Qmult_le_0_compat; [now apply Hr | apply weight_nonneg]. }
  assert (0 <= d * sum_over (keys c) (fun i => rank r i * weight c p i))
    by now apply Qmult_le_0_compat.
  lra.
Qed.

(** A sweep keeps a rank vector a probability distribution whose
    entries are at least [(1 - d) / N]. *)
Lemma sweep_keeps_distribution (c : Corpus) (d : Q) (r r' : dict Q) :
  closed c -> 0 <= d <= 1 -> keys r = keys c ->
  total r == 1 /\ (forall p, In p (keys c) -> (1 - d) / len c <= rank r p) ->
  sweep c d r = Ok r' ->
  total r' == 1 /\ (forall p, In p (keys c) -> (1 - d) / len c <= rank r' p).
Proof.
  intros Hcl [Hd0 Hd1] Hr [Ht Hlow] Hsw.
  split; [now apply (sweep_total_one c d r r')|].
  intros p Hp. destruct (sweep_keys c d r r' Hr Hsw) as [_ Hv].
  rewrite (proj2 (Hv p Hp)). apply next_rank_lower; [assumption|].
  intros i Hi. eapply Qle_trans; [|apply Hlow; assumption].
  apply Qdiv_nonneg; [lra | apply len_nonneg].
Qed.

Lemma uniform_distribution (c : Corpus) (d : Q) :
  entries c <> [] -> 0 <= d <= 1 ->
  total (tabulate (fun _ => 1 / len c) (keys c)) == 1 /\
  (forall p, In p (keys c) ->
     (1 - d) / len c <= rank (tabulate (fun _ => 1 / len c) (keys c)) p).
Proof.
  intros Hne [Hd0 Hd1]. split; [now apply uniform_total|].
  intros p Hp. rewrite rank_tabulate by assumption.
  pose proof (len_pos _ Hne) as HN. unfold Qdiv.
  apply Qmult_le_compat_r; [lra|].
  apply Qinv_le_0_compat. lra.
Qed.

(** X6: on a non-empty corpus with the closure invariant and for a
    damping factor in [0,1], every table [iterate_pagerank] returns has
    exactly the pages of the corpus, in the order of the corpus, and
    every rank in it lies between [(1 - d) / N] and 1. *)
Theorem iterate_pagerank_range (c : Corpus) (d : Q) (fuel : nat) (r : dict Q) :
  closed c -> entries c <> [] -> 0 <= d <= 1 ->
  iterate_pagerank fuel c d = Some (Ok r) ->
  keys r = keys c /\
  forall p v, dict_get r p = Some v -> (1 - d) / len c <= v <= 1.
Proof.
  intros Hcl Hne Hd H. apply iterate_pagerank_run in H.
  destruct H as [st [Hrun <-]].
  destruct (iterate_run_exit c d
              (fun r => total r == 1 /\
                        forall p, In p (keys c) -> (1 - d) / len c <= rank r p)
              (fun r r' Hk HP Hs => sweep_keeps_distribution c d r r' Hcl Hd Hk HP Hs)
              (uniform_distribution c d Hne Hd) fuel st Hrun)
    as [Hk [[Ht Hlow] _]].
  split; [assumption|]. intros p v Hv.
  assert (Hp : In p (keys c)) by (rewrite <- Hk; eapply dict_get_keys; eassumption).
  assert (Hrank : rank (PageRank_of st) p = v) by (unfold rank; now rewrite Hv).
  rewrite <- Hrank. split; [now apply Hlow|].
  apply Qle_trans with (sum_over (keys c) (rank (PageRank_of st))).
  - apply sum_over_term; [|assumption].
    intros q Hq. eapply Qle_trans; [|apply Hlow; assumption].
    apply Qdiv_nonneg; [lra | apply len_nonneg].
  - rewrite <- Hk, <- total_sum_over by (rewrite Hk; apply Corpus_NoDup_keys).
    rewrite Ht. apply Qle_refl.
Qed.

Lemma iterate_pagerank_range_witness :
  keys [(page_A, 800 # 1600); (page_B, 800 # 1600)] = keys pair_corpus /\
  forall p v,
    dict_get [(page_A, 800 # 1600); (page_B, 800 # 1600)] p = Some v ->
    (1 - (17 # 20)) / len pair_corpus <= v <= 1.
Proof.
  apply (iterate_pagerank_range pair_corpus (17 # 20) 1).
  - apply closedb_closed. reflexivity.
  - discriminate.
  - split; discriminate.
  - reflexivity.
Defined.

Lemma qpow_small_at (d D : Q) (m : nat) :
  0 <= d < 1 -> 0 <= D ->
  1000 * D <= inject_Z (Z.of_nat m) * (1 - d) ->
  qpow d m * D < 1 # 1000.
Proof.
  intros [Hd0 Hd1] HD Hk.
  pose proof (qpow_bernoulli d m (conj Hd0 (Qlt_le_weak _ _ Hd1))) as Hb.
  pose proof (qpow_nonneg d m Hd0) as Hq0.
  set (q := qpow d m) in *. set (k := inject_Z (Z.of_nat m)) in *.
  assert (H1 : q * (1000 * D) <= q * (k * (1 - d)))
    by (apply Qmult_le_l_weak; assumption).
  destruct (Qlt_le_dec 0 q) as [Hpos | Hzero].
  - lra.
  - assert (Hq : q == 0) by lra. rewrite Hq. lra.
Qed.

Lemma distance_distributions (ks : list page) (r s : dict Q) :
  (forall p, In p ks -> 0 <= rank r p) ->
  (forall p, In p ks -> 0 <= rank s p) ->
  distance ks r s <= sum_over ks (rank r) + sum_over ks (rank s).
Proof.
  intros Hr Hs. unfold distance. rewrite <- sum_over_plus.
  apply sum_over_le. intros p Hp.
  specialize (Hr p Hp). specialize (Hs p Hp).
  apply Qabs_Qle_condition. split; lra.
Qed.

(** X7: a bound on the number of sweeps that does not depend on the
    corpus.  On a non-empty corpus with the closure invariant and for a
    damping factor [d] in [[0,1)], the loop of [iterate_pagerank] is
    left after at most [ceil(2000 / (1 - d)) + 1] sweeps. *)
Theorem iterate_pagerank_sweep_bound (c : Corpus) (d : Q) :
  closed c -> entries c <> [] -> 0 <= d < 1 ->
  exists r,
    iterate_pagerank (S (Z.to_nat (Qceiling (2000 / (1 - d))))) c d =
    Some (Ok r).
Proof.
  intros Hcl Hne [Hd0 Hd1].
  assert (Hd : 0 <= d <= 1) by lra.
  pose proof (Corpus_NoDup_keys c) as Hks.
  destruct (iterate_init_Ok c d) as [r1 [Hsw1 [Hinit Hr1]]].
  destruct (sweep_total c d r1 Hr1) as [r2 Hsw2].
  destruct (sweep_keys c d r1 r2 Hr1 Hsw2) as [Hr2 _].
  pose proof (sweep_keeps_distribution c d _ r1 Hcl Hd (keys_tabulate _ _)
                (uniform_distribution c d Hne Hd) Hsw1) as [Ht1 Hl1].
  pose proof (sweep_keeps_distribution c d r1 r2 Hcl Hd Hr1
                (conj Ht1 Hl1) Hsw2) as [Ht2 Hl2].
  assert (Hbase : 0 <= (1 - d) / len c)
    by (apply Qdiv_nonneg; [lra | apply len_nonneg]).
  assert (HD : distance (keys c) r1 r2 <= 2).
  { eapply Qle_trans; [apply distance_distributions|].
    - intros p Hp. specialize (Hl1 p Hp). lra.
    - intros p Hp. specialize (Hl2 p Hp). lra.
    - assert (S1 : sum_over (keys c) (rank r1) == 1)
        by (rewrite <- Hr1, <- total_sum_over;
            [assumption | now rewrite Hr1]).
      assert (S2 : sum_over (keys c) (rank r2) == 1)
        by (rewrite <- Hr2, <- total_sum_over;
            [assumption | now rewrite Hr2]).
      rewrite S1, S2. discriminate. }
  assert (HD0 : 0 <= distance (keys c) r1 r2)
    by (apply sum_over_nonneg; intros; apply Qabs_nonneg).
  set (x := 2000 / (1 - d)).
  assert (Hx : 0 <= x) by (apply Qdiv_nonneg; lra).
  pose proof (Qle_ceiling x) as Hc.
  assert (Hz : (0 <= Qceiling x)%Z)
    by (rewrite Zle_Qle; change (inject_Z 0) with 0; lra).
  set (m := Z.to_nat (Qceiling x)).
  assert (Hm : inject_Z (Z.of_nat m) = inject_Z (Qceiling x))
    by (unfold m; now rewrite Z2Nat.id).
  assert (Hk : 1000 * distance (keys c) r1 r2 <=
               inject_Z (Z.of_nat m) * (1 - d)).
  { rewrite Hm. apply Qle_trans with (x * (1 - d)).
    - unfold x.
      setoid_replace (2000 / (1 - d) * (1 - d)) with 2000 by (field; lra).
      lra.
    - apply Qmult_le_compat_r; [assumption | lra]. }
  pose proof (qpow_small_at d _ m (conj Hd0 Hd1) HD0 Hk) as Hsmall.
  destruct (iterate_loop_terminates c d Hd0 m r1 r2 Hr1 Hsw2 Hsmall)
    as [st Hst].
  exists (PageRank_of st). apply iterate_pagerank_run. exists st.
  split; [|reflexivity]. unfold iterate_run. now rewrite Hinit.
Qed.

Lemma iterate_pagerank_sweep_bound_witness :
  exists r,
    iterate_pagerank (S (Z.to_nat (Qceiling (2000 / (1 - (1 # 2))))))
      dangling_corpus (1 # 2) = Some (Ok r).
Proof.
  apply (iterate_pagerank_sweep_bound dangling_corpus (1 # 2)).
  - apply closedb_closed. reflexivity.
  - discriminate.
  - split; [discriminate | reflexivity].
Defined.

(** ** iterate_pagerank: runs that end in the first pass *)

Lemma next_rank_constant (c : dict (list page)) (d u : Q) (r : dict Q)
    (p : page) :
  (forall i, In i (keys c) -> rank r i == u) ->
  next_rank c d r p ==
  (1 - d) / len c + d * (u * sum_over (keys c) (fun i => weight c p i)).
Proof.
  intro Hr. unfold next_rank.
  rewrite (sum_over_ext _ (fun i => rank r i * weight c p i)
             (fun i => u * weight c p i))
    by (intros i Hi; now rewrite Hr).
  now rewrite sum_over_scale.
Qed.

(** When a sweep maps the uniform vector to itself, the first pass of
    the loop already sees no change and the uniform vector is
    returned. *)
Lemma iterate_uniform_fixed (c : Corpus) (d : Q) :
  (forall r, (forall p, In p (keys c) -> rank r p == 1 / len c) ->
             forall p, In p (keys c) -> next_rank c d r p == 1 / len c) ->
  exists r,
    iterate_pagerank 1 c d = Some (Ok r) /\ keys r = keys c /\
    forall p, In p (keys c) -> rank r p == 1 / len c.
Proof.
  intro Hfix.
  destruct (iterate_init_Ok c d) as [r1 [Hsw1 [Hinit Hr1]]].
  destruct (sweep_keys c d _ r1 (keys_tabulate _ _) Hsw1) as [_ Hv1].
  destruct (sweep_total c d r1 Hr1) as [r2 Hsw2].
  destruct (sweep_keys c d r1 r2 Hr1 Hsw2) as [Hr2 Hv2].
  assert (H1 : forall p, In p (keys c) -> rank r1 p == 1 / len c).
  { intros p Hp. rewrite (proj2 (Hv1 p Hp)). apply Hfix; [|assumption].
    intros q Hq. now rewrite rank_tabulate. }
  assert (H2 : forall p, In p (keys c) -> rank r2 p == 1 / len c).
  { intros p Hp. rewrite (proj2 (Hv2 p Hp)). now apply Hfix. }
  assert (Hch : changed (keys c) r1 r2 = false).
  { apply changed_false. intros p Hp. rewrite (H1 p Hp), (H2 p Hp).
    setoid_replace (1 / len c - 1 / len c) with 0 by ring. reflexivity. }
  exists r1. split; [|split; assumption].
  apply iterate_pagerank_run. exists (mkState r1 r2). split; [|reflexivity].
  unfold iterate_run. rewrite Hinit.
  rewrite (iterate_loop_step c d 0 r1 r2 Hr1 Hsw2 Hr2). now rewrite Hch.
Qed.

(** X8: with damping 0 the links play no part: on every non-empty
    corpus [iterate_pagerank] leaves the loop in its first pass and
    returns the rank [1/N] for every page. *)
Theorem iterate_pagerank_damping_zero (c : Corpus) :
  entries c <> [] ->
  exists r,
    iterate_pagerank 1 c 0 = Some (Ok r) /\ keys r = keys c /\
    forall p, In p (keys c) -> rank r p == 1 / len c.
Proof.
  intro Hne. apply iterate_uniform_fixed. intros r _ p _.
  unfold next_rank. pose proof (len_pos _ Hne). field. lra.
Qed.

Lemma iterate_pagerank_damping_zero_witness :
  exists r,
    iterate_pagerank 1 open_corpus3 0 = Some (Ok r) /\
    keys r = keys open_corpus3 /\
    forall p, In p (keys open_corpus3) -> rank r p == 1 / len open_corpus3.
Proof.
  apply (iterate_pagerank_damping_zero open_corpus3). discriminate.
Defined.



(** X10: a corpus with a single page and the closure invariant: for
    every damping factor in [0,1], [sample_pagerank] (with [n >= 1],
    whatever is drawn) and [iterate_pagerank] both return the table that
    gives the page the rank 1. *)
Theorem single_page_estimators
    (c : Corpus) (a : page) (li : list page) (d : Q) :
  entries c = [(a, li)] -> closed c -> 0 <= d <= 1 ->
  (forall n rnd, (1 <= n)%nat ->
     exists v, sample_pagerank c d n rnd = Ok [(a, v)] /\ v == 1) /\
  (exists v, iterate_pagerank 1 c d = Some (Ok [(a, v)]) /\ v == 1).
Proof.
  intros Hc Hcl _.
  assert (Hne : entries c <> []) by (rewrite Hc; discriminate).
  assert (Hk : keys c = [a]) by (unfold keys; now rewrite Hc).
  assert (Hlen : len c == 1) by (unfold len; rewrite Hc; reflexivity).
  assert (Hone : forall t : dict Q,
             keys t = [a] -> t = [(a, rank t a)]).
  { intros t Ht. destruct t as [|[k v] [|e t']]; try discriminate.
    injection Ht as ->. unfold rank. simpl. now rewrite String.eqb_refl. }
  split.
  - intros n rnd Hn.
    destruct (sample_pagerank_run c d n rnd Hcl Hne Hn)
      as [t [counts [pg0 [pg [k [_ [_ [Hs [Hkt [_ [Ht _]]]]]]]]]]].
    rewrite Hk in Hkt. exists (rank t a). rewrite <- (Hone t Hkt).
    split; [assumption|].
    rewrite total_sum_over, Hkt in Ht by (rewrite Hkt, <- Hk; apply Corpus_NoDup_keys).
    rewrite sum_over_cons in Ht. change (sum_over [] (rank t)) with 0 in Ht.
    lra.
  - destruct (iterate_uniform_fixed c d) as [r [Hr [Hkr Hv]]].
    + intros r Hr p Hp.
      rewrite (next_rank_constant c d (1 / len c) r p Hr).
      rewrite Hk in Hp. destruct Hp as [<- | []].
      pose proof (weight_column_closed c a Hcl) as Hcol.
      rewrite Hk in Hcol. rewrite Hk, Hcol by now left.
      rewrite Hlen. field.
    + rewrite Hk in Hkr. exists (rank r a). rewrite <- (Hone r Hkr).
      split; [assumption|].
      rewrite (Hv a) by (rewrite Hk; now left).
      rewrite Hlen. reflexivity.
Qed.

Lemma single_page_estimators_witness :
  exists v,
    iterate_pagerank 1 single_corpus (17 # 20) = Some (Ok [(page_A, v)]) /\
    v == 1.
Proof.
  apply (single_page_estimators single_corpus page_A [] (17 # 20)).
  - reflexivity.
  - apply closedb_closed. reflexivity.
  - split; discriminate.
Defined.

(** ** sample_pagerank: the first visit, pages of weight zero *)

Lemma walk_step (c : Corpus) (d : Q) (rnd : nat -> Q) (count k : nat)
    (pg : page) (PR : dict Q) :
  closed c -> In pg (keys c) -> keys PR = keys c ->
  exists links pg1,
    dict_get c pg = Some links /\
    choices (keys c) (map (transition_value c links d) (keys c)) (rnd k)
      = Ok pg1 /\
    In pg1 (keys c) /\
    walk (S count) c d rnd k pg PR =
    walk count c d rnd (S k) pg1 (setitem PR pg (rank PR pg + 1)).
Proof.
  intros Hcl Hpg HPR.
  destruct (dict_get_some c pg Hpg) as [links Hlinks].
  assert (Hw : map snd (tabulate (transition_value c links d) (keys c)) =
               map (transition_value c links d) (keys c))
    by (unfold tabulate; rewrite map_map; reflexivity).
  destruct (choices_Ok (keys c)
              (map (transition_value c links d) (keys c)) (rnd k))
    as [pg1 [Hch Hpg1]].
  { destruct (keys c); [destruct Hpg | discriminate]. }
  { now rewrite length_map. }
  { change (qsum (map (transition_value c links d) (keys c)))
      with (sum_over (keys c) (transition_value c links d)).
    rewrite (transition_value_sum c pg links d Hlinks)
      by now apply (closed_links c pg).
    reflexivity. }
  exists links, pg1. split; [assumption|]. split; [assumption|].
  split; [assumption|].
  cbn [walk]. rewrite rank_getitem by now rewrite HPR. cbn [bind].
  rewrite (transition_model_Ok c pg links d Hlinks)
    by now apply (closed_links c pg).
  cbn [bind]. rewrite Hw.
  rewrite (keys_tabulate (transition_value c links d) (keys c) :
             map fst (tabulate (transition_value c links d) (keys c)) = keys c).
  rewrite Hch. reflexivity.
Qed.



Lemma qsum_firstn_succ (ws : list Q) (j : nat) :
  (j < List.length ws)%nat ->
  qsum (firstn (S j) ws) == qsum (firstn j ws) + nth j ws 0.
Proof.
  revert j. induction ws as [|w t IH]; intros j Hj; [simpl in Hj; lia|].
  destruct j as [|j].
  - simpl. lra.
  - simpl in Hj. change (firstn (S (S j)) (w :: t)) with (w :: firstn (S j) t).
    change (firstn (S j) (w :: t)) with (w :: firstn j t).
    change (nth (S j) (w :: t) 0) with (nth j t 0).
    change (qsum (w :: firstn (S j) t)) with (w + qsum (firstn (S j) t)).
    change (qsum (w :: firstn j t)) with (w + qsum (firstn j t)).
    rewrite IH by lia. lra.
Qed.

Lemma qsum_firstn_le (ws : list Q) (j j' : nat) :
  (forall w, In w ws -> 0 <= w) -> (j <= j')%nat ->
  qsum (firstn j ws) <= qsum (firstn j' ws).
Proof.
  intros Hw Hle. induction Hle as [|j' Hle IH]; [apply Qle_refl|].
  destruct (Nat.lt_ge_cases j' (List.length ws)) as [Hlt | Hge].
  - rewrite qsum_firstn_succ by assumption.
    assert (0 <= nth j' ws 0) by (apply Hw, nth_In; assumption).
    lra.
  - rewrite (firstn_all2 (n := S j')) by lia.
    now rewrite (firstn_all2 (n := j')) in IH by lia.
Qed.

Lemma nth_accumulate_from (ws : list Q) (acc : Q) (j : nat) :
  (j < List.length ws)%nat ->
  nth j (accumulate_from acc ws) 0 == acc + qsum (firstn (S j) ws).
Proof.
  revert acc j. induction ws as [|w t IH]; intros acc j Hj;
    [simpl in Hj; lia|].
  destruct j as [|j].
  - simpl. lra.
  - simpl in Hj.
    change (nth (S j) (accumulate_from acc (w :: t)) 0)
      with (nth j (accumulate_from (acc + w) t) 0).
    change (firstn (S (S j)) (w :: t)) with (w :: firstn (S j) t).
    rewrite IH by lia.
    change (qsum (w :: firstn (S j) t)) with (w + qsum (firstn (S j) t)).
    lra.
Qed.

Lemma nth_accumulate (ws : list Q) (j : nat) :
  (j < List.length ws)%nat ->
  nth j (accumulate ws) 0 == qsum (firstn (S j) ws).
Proof.
  destruct ws as [|w t]; intro Hj; [simpl in Hj; lia|].
  destruct j as [|j].
  - simpl. lra.
  - simpl in Hj.
    change (nth (S j) (accumulate (w :: t)) 0)
      with (nth j (accumulate_from w t) 0).
    change (firstn (S (S j)) (w :: t)) with (w :: firstn (S j) t).
    rewrite nth_accumulate_from by lia. reflexivity.
Qed.

(** On a list that is sorted between [lo] and [hi], [bisect] returns
    the index that splits it at [x]. *)
Lemma bisect_split (a : list Q) (x : Q) (lo hi : nat) :
  (forall j j', (lo <= j)%nat -> (j <= j')%nat -> (j' < hi)%nat ->
                nth j a 0 <= nth j' a 0) ->
  (lo <= hi)%nat ->
  (forall j, (lo <= j)%nat -> (j < bisect a x lo hi)%nat -> nth j a 0 <= x) /\
  (forall j, (bisect a x lo hi <= j)%nat -> (j < hi)%nat -> x < nth j a 0).
Proof.
  funelim (bisect a x lo hi); intros Hsorted Hle;
    [|split; intros j H1 H2; lia].
  pose proof (Nat.div_mod_eq (lo + hi) 2) as Hdiv.
  pose proof (Nat.mod_upper_bound (lo + hi) 2) as Hmod.
  set (mid := ((lo + hi) / 2)%nat) in *.
  assert (Hmid : (lo <= mid < hi)%nat) by lia.
  destruct (Qle_bool (nth mid a 0) x) eqn:E; cbn [negb].
  - apply Qle_bool_iff in E.
    match goal with
    | IH : _ -> _ -> (forall j, (S mid <= j)%nat -> _) /\ _ |- _ =>
        destruct IH as [IH1 IH2];
          [intros j j' H1 H2 H3; apply Hsorted; lia | lia |]
    end.
    pose proof (bisect_bounds a x (S mid) hi ltac:(lia)) as Hb.
    split.
    + intros j H1 H2.
      destruct (Nat.le_gt_cases j mid) as [Hjm | Hjm].
      * eapply Qle_trans; [apply (Hsorted j mid); lia | exact E].
      * apply IH1; lia.
    + intros j H1 H2. apply IH2; assumption.
  - assert (Hlt : x < nth mid a 0).
    { apply Qnot_le_lt. intro Hc. apply Qle_bool_iff in Hc. congruence. }
    match goal with
    | IH : _ -> _ -> (forall j, (lo <= j)%nat -> _) /\ _ |- _ =>
        destruct IH as [IH1 IH2];
          [intros j j' H1 H2 H3; apply Hsorted; lia | lia |]
    end.
    pose proof (bisect_bounds a x lo mid ltac:(lia)) as Hb.
    split.
    + intros j H1 H2. apply IH1; assumption.
    + intros j H1 H2.
      destruct (Nat.lt_ge_cases j mid) as [Hjm | Hjm].
      * apply IH2; assumption.
      * eapply Qlt_le_trans; [exact Hlt | apply (Hsorted mid j); lia].
Qed.

Lemma choices_unfold (population : list page) (weights : list Q) (u : Q) :
  weights <> [] -> List.length weights = List.length population ->
  choices population weights u =
  if Qle_bool (last (accumulate weights) 0) 0 then Raise ValueError
  else item population
         (bisect (accumulate weights) (u * last (accumulate weights) 0) 0
                 (List.length population - 1)).
Proof.
  intros Hne Hlen. unfold choices.
  rewrite length_accumulate, Hlen, Nat.eqb_refl. cbn [negb].
  destruct weights as [|w t]; [congruence | reflexivity].
Qed.

(** With non-negative weights and a value of [random()] in [[0,1)],
    [random.choices] returns a page whose weight is positive. *)
Lemma choices_positive (population : list page) (weights : list Q) (u : Q) :
  population <> [] -> List.length weights = List.length population ->
  (forall w, In w weights -> 0 <= w) -> 0 < qsum weights -> 0 <= u < 1 ->
  exists i p,
    choices population weights u = Ok p /\
    nth_error population i = Some p /\
    0 < nth i weights 0.
Proof.
  intros Hne Hlen Hw Hpos [Hu0 Hu1].
  assert (Hwne : weights <> [])
    by (intro E; rewrite E in Hlen; destruct population; [congruence | discriminate]).
  set (n := List.length population) in *.
  assert (Hn : (0 < n)%nat)
    by (unfold n; destruct population; [congruence | simpl; lia]).
  pose proof (last_accumulate weights 0 Hwne) as Htotal.
  set (total := last (accumulate weights) 0) in *.
  set (x := u * total).
  assert (Hx0 : 0 <= x) by (apply Qmult_le_0_compat; lra).
  assert (Hx1 : x < total).
  { unfold x. rewrite <- (Qmult_1_l total) at 2.
    apply Qmult_lt_compat_r; lra. }
  assert (Hsorted : forall j j', (0 <= j)%nat -> (j <= j')%nat ->
                      (j' < n - 1)%nat ->
                      nth j (accumulate weights) 0 <=
                      nth j' (accumulate weights) 0).
  { intros j j' _ Hjj Hj'. rewrite !nth_accumulate by lia.
    apply qsum_firstn_le; [assumption | lia]. }
  pose proof (bisect_bounds (accumulate weights) x 0 (n - 1) ltac:(lia)) as Hb.
  destruct (bisect_split (accumulate weights) x 0 (n - 1) Hsorted ltac:(lia))
    as [Hlow Hhigh].
  set (i := bisect (accumulate weights) x 0 (n - 1)) in *.
  assert (Hi : (i < List.length weights)%nat) by lia.
  assert (Hup : x < nth i (accumulate weights) 0).
  { destruct (Nat.lt_ge_cases i (n - 1)) as [Hlt | Hge].
    - apply Hhigh; lia.
    - assert (Ei : S i = List.length weights) by lia.
      rewrite nth_accumulate, Ei, firstn_all by assumption.
      now rewrite <- Htotal. }
  assert (Hdown : qsum (firstn i weights) <= x).
  { destruct i as [|i']; [exact Hx0|].
    rewrite <- nth_accumulate by lia. apply Hlow; lia. }
  rewrite nth_accumulate, qsum_firstn_succ in Hup by assumption.
  destruct (item_Ok population i ltac:(fold n; lia)) as [p [Hitem _]].
  exists i, p. split; [|split].
  - rewrite choices_unfold by assumption. fold total. fold x. fold n. fold i.
    destruct (Qle_bool total 0) eqn:E; [|exact Hitem].
    apply Qle_bool_iff in E. lra.
  - unfold item in Hitem. destruct (nth_error population i); [|discriminate].
    now injection Hitem as ->.
  - lra.
Qed.

(** X12: a page of probability zero is never visited next.  On a corpus
    with the closure invariant, for a damping factor in [0,1] and a value
    of [random()] in [[0,1)], one turn of the loop of [sample_pagerank]
    from a page of the corpus moves to a page to which
    [transition_model] gives a positive probability; with damping 1 and a
    current page that has links, that is one of its links. *)
Theorem sample_pagerank_moves_with_positive_probability
    (c : Corpus) (d : Q) (rnd : nat -> Q) (k : nat) (pg : page) (PR : dict Q) :
  closed c -> 0 <= d <= 1 -> 0 <= rnd k < 1 ->
  In pg (keys c) -> keys PR = keys c ->
  exists PR' pg',
    walk 1 c d rnd k pg PR = Ok (PR', pg', S k) /\
    0 < transition_prob c d pg pg' /\
    (d == 1 ->
     forall links, dict_get c pg = Some links -> links <> [] -> In pg' links).
Proof.
  intros Hcl Hd Hu Hpg HPR.
  destruct (walk_step c d rnd 0 k pg PR Hcl Hpg HPR)
    as [links [pg1 [Hlinks [Hch [Hpg1 Hstep]]]]].
  pose proof (closed_links c pg links Hcl Hlinks) as Hincl.
  destruct (choices_positive (keys c)
              (map (transition_value c links d) (keys c)) (rnd k))
    as [i [p [Hch' [Hnth Hposw]]]].
  { destruct (keys c); [destruct Hpg | discriminate]. }
  { now rewrite length_map. }
  { intros w Hin. apply in_map_iff in Hin. destruct Hin as [q [<- _]].
    now apply transition_value_nonneg. }
  { change (qsum (map (transition_value c links d) (keys c)))
      with (sum_over (keys c) (transition_value c links d)).
    rewrite (transition_value_sum c pg links d Hlinks) by assumption.
    reflexivity. }
  { assumption. }
  rewrite Hch in Hch'. injection Hch' as <-.
  assert (Hval : 0 < transition_value c links d pg1).
  { assert (E : nth i (map (transition_value c links d) (keys c)) 0 =
                transition_value c links d pg1).
    { apply nth_error_nth.
      rewrite nth_error_map, Hnth. reflexivity. }
    now rewrite E in Hposw. }
  exists (setitem PR pg (rank PR pg + 1)), pg1.
  split; [rewrite Hstep; reflexivity|]. split.
  - unfold transition_prob.
    rewrite (transition_model_Ok c pg links d Hlinks) by assumption.
    now rewrite rank_tabulate.
  - intros Hd1 links' Hlinks' Hne. rewrite Hlinks in Hlinks'.
    injection Hlinks' as <-. apply mem_In.
    destruct (mem pg1 links) eqn:M; [reflexivity|]. exfalso.
    unfold transition_value in Hval. apply is_empty_false in Hne.
    rewrite Hne, M in Hval.
    assert (Hz : (1 - d) / len c == 0) by (rewrite Hd1; reflexivity).
    lra.
Qed.

Lemma sample_pagerank_moves_with_positive_probability_witness :
  exists PR' pg',
    walk 1 pair_corpus 1 (unit_draw fixed_draws) 0 page_A
      [(page_A, 0); (page_B, 0)] = Ok (PR', pg', 1%nat) /\
    0 < transition_prob pair_corpus 1 page_A pg' /\
    (1 == 1 ->
     forall links, dict_get pair_corpus page_A = Some links -> links <> [] ->
       In pg' links).
Proof.
  apply (sample_pagerank_moves_with_positive_probability pair_corpus 1
           (unit_draw fixed_draws) 0 page_A [(page_A, 0); (page_B, 0)]).
  - apply closedb_closed. reflexivity.
  - split; discriminate.
  - split; [discriminate | reflexivity].
  - now left.
  - reflexivity.
Defined.

(** ** crawl *)

Lemma to_set_In (xs : list page) (x : page) : In x (to_set xs) <-> In x xs.
Proof.
  induction xs as [|y t IH]; [reflexivity|]. simpl.
  destruct (mem y t) eqn:E.
  - rewrite IH. apply mem_In in E. split; [tauto|].
    intros [<- | H]; assumption.
  - simpl. rewrite IH. reflexivity.
Qed.

Lemma to_set_NoDup (xs : list page) : NoDup (to_set xs).
Proof.
  induction xs as [|y t IH]; [constructor|]. simpl.
  destruct (mem y t) eqn:E; [assumption|].
  constructor; [|assumption]. rewrite to_set_In. now apply mem_false.
Qed.

Lemma set_minus_In (s : list page) (x y : page) :
  In y (set_minus s x) <-> In y s /\ y <> x.
Proof.
  unfold set_minus. rewrite filter_In, negb_true_iff, String.eqb_neq.
  reflexivity.
Qed.

Lemma setitem_keys_In {V : Type} (d : dict V) (k k' : page) (v : V) :
  In k' (keys (setitem d k v)) <-> k' = k \/ In k' (keys d).
Proof.
  destruct (in_dec string_dec k (keys d)) as [Hin | Hout].
  - rewrite setitem_keys_in by assumption. split; [tauto|].
    intros [-> | H]; assumption.
  - rewrite setitem_fresh by assumption. unfold keys. rewrite map_app, in_app_iff.
    simpl. split; [intros [H | [H | []]]; auto | intros [H | H]; auto].
Qed.

Lemma setitem_keys_NoDup {V : Type} (d : dict V) (k : page) (v : V) :
  NoDup (keys d) -> NoDup (keys (setitem d k v)).
Proof.
  intro Hnd. destruct (in_dec string_dec k (keys d)) as [Hin | Hout].
  - now rewrite setitem_keys_in.
  - rewrite setitem_fresh by assumption. unfold keys. rewrite map_app. simpl.
    apply NoDup_app; [assumption | constructor; [intros [] | constructor] |].
    intros x Hx [<- | []]. contradiction.
Qed.

Lemma setitem_entries {V : Type} (d : dict V) (k k' : page) (v v' : V) :
  In (k', v') (setitem d k v) -> (k' = k /\ v' = v) \/ In (k', v') d.
Proof.
  induction d as [|[k0 v0] t IH]; simpl.
  - intros [H | []]. injection H as <- <-. now left.
  - destruct (String.eqb k0 k) eqn:E.
    + apply String.eqb_eq in E. subst k0.
      intros [H | H]; [injection H as <- <-; now left | right; now right].
    + intros [H | H]; [right; now left|].
      destruct (IH H) as [H' | H']; [now left | right; now right].
Qed.

Lemma entry_dict_get {V : Type} (d : dict V) (k : page) (v : V) :
  NoDup (keys d) -> In (k, v) d -> dict_get d k = Some v.
Proof.
  induction d as [|[k' v'] t IH]; simpl; [tauto|].
  intros Hnd [Heq | Hin].
  - injection Heq as -> ->. now rewrite String.eqb_refl.
  - inversion Hnd as [|? ? Hk' Ht]; subst.
    destruct (String.eqb k' k) eqn:E; [|now apply IH].
    apply String.eqb_eq in E. subst k'. exfalso. apply Hk'.
    change k with (fst (k, v)). now apply in_map.
Qed.

Section CrawlFacts.
Variable findall : string -> list string.

(** The first loop fails only where an entry whose name ends in [.html]
    cannot be read, with the exception of that entry. *)
Lemma read_pages_Raise (listing : list (string * result string))
    (acc : dict (list page)) (e : exn) :
  read_pages findall listing acc = Raise e ->
  exists name, In (name, Raise e) listing /\ endswith name html_suffix = true.
Proof.
  revert acc. induction listing as [|[name opened] t IH]; intros acc H;
    [discriminate|].
  simpl in H. destruct (endswith name html_suffix) eqn:E; simpl in H.
  - destruct opened as [contents|e']; simpl in H.
    + destruct (IH _ H) as [f [Hin Hf]]. exists f. split; [now right | assumption].
    + injection H as ->. exists name. split; [now left | assumption].
  - destruct (IH _ H) as [f [Hin Hf]]. exists f. split; [now right | assumption].
Qed.

Lemma read_pages_readable (listing : list (string * result string))
    (acc : dict (list page)) :
  readable listing -> exists pages, read_pages findall listing acc = Ok pages.
Proof.
  intro Hr. destruct (read_pages findall listing acc) as [pages|e] eqn:E;
    [eauto|].
  destruct (read_pages_Raise listing acc e E) as [name [Hin Hname]].
  destruct (Hr name (Raise e) Hin Hname) as [contents Hc]. discriminate.
Qed.

Lemma read_pages_unreadable (listing : list (string * result string))
    (acc : dict (list page)) :
  ~ readable listing -> exists e, read_pages findall listing acc = Raise e.
Proof.
  revert acc. induction listing as [|[name opened] t IH]; intros acc Hn.
  - exfalso. apply Hn. intros name opened [].
  - simpl. destruct (endswith name html_suffix) eqn:E; simpl.
    + destruct opened as [contents|e]; simpl; [|eauto].
      apply IH. intro Hr. apply Hn. intros g out [Heq | Hin] Hg.
      * injection Heq as <- <-. eauto.
      * now apply (Hr g out).
    + apply IH. intro Hr. apply Hn. intros g out [Heq | Hin] Hg.
      * injection Heq as <- <-. congruence.
      * now apply (Hr g out).
Qed.

Lemma read_pages_keys (listing : list (string * result string))
    (acc pages : dict (list page)) (f : page) :
  read_pages findall listing acc = Ok pages ->
  (In f (keys pages) <->
   In f (keys acc) \/
   (In f (map fst listing) /\ endswith f html_suffix = true)).
Proof.
  revert acc. induction listing as [|[name opened] t IH]; intros acc H.
  - injection H as <-. simpl. tauto.
  - simpl in H. simpl map. destruct (endswith name html_suffix) eqn:E;
      simpl in H.
    + destruct opened as [contents|e]; simpl in H; [|discriminate].
      rewrite (IH _ H), setitem_keys_In. simpl. split.
      * intros [[-> | H1] | [H1 H2]]; auto.
      * intros [H1 | [[<- | H1] H2]]; auto.
    + rewrite (IH _ H). simpl. split.
      * intros [H1 | [H1 H2]]; auto.
      * intros [H1 | [[<- | H1] H2]]; auto. congruence.
Qed.

Lemma read_pages_NoDup (listing : list (string * result string))
    (acc pages : dict (list page)) :
  read_pages findall listing acc = Ok pages ->
  NoDup (keys acc) -> NoDup (keys pages).
Proof.
  revert acc. induction listing as [|[name opened] t IH]; intros acc H Hnd.
  - now injection H as <-.
  - simpl in H. destruct (endswith name html_suffix); simpl in H.
    + destruct opened as [contents|e]; simpl in H; [|discriminate].
      apply (IH _ H). now apply setitem_keys_NoDup.
    + now apply (IH _ H).
Qed.

Lemma read_pages_entries (P : page -> list page -> Prop)
    (listing : list (string * result string)) (acc pages : dict (list page)) :
  (forall f contents, P f (set_minus (to_set (findall contents)) f)) ->
  read_pages findall listing acc = Ok pages ->
  (forall k v, In (k, v) acc -> P k v) ->
  forall k v, In (k, v) pages -> P k v.
Proof.
  intro HP. revert acc.
  induction listing as [|[name opened] t IH]; intros acc H Hacc.
  - now injection H as <-.
  - simpl in H. destruct (endswith name html_suffix); simpl in H.
    + destruct opened as [contents|e]; simpl in H; [|discriminate].
      apply (IH _ H). intros k' v' H'.
      destruct (setitem_entries _ _ _ _ _ H') as [[-> ->] | Hold];
        [apply HP | now apply Hacc].
    + now apply (IH _ H).
Qed.

Lemma read_pages_other (listing : list (string * result string))
    (acc pages : dict (list page)) (f : page) :
  read_pages findall listing acc = Ok pages ->
  ~ In f (map fst listing) -> dict_get pages f = dict_get acc f.
Proof.
  revert acc. induction listing as [|[name opened] t IH]; intros acc H Hf.
  - now injection H as <-.
  - simpl in Hf. simpl in H.
    destruct (endswith name html_suffix); simpl in H.
    + destruct opened as [contents|e]; simpl in H; [|discriminate].
      rewrite (IH _ H) by tauto. apply setitem_get_other. tauto.
    + apply (IH _ H). tauto.
Qed.

Lemma read_pages_get (listing : list (string * result string))
    (acc pages : dict (list page)) (f : page) (contents : string) :
  NoDup (map fst listing) -> In (f, Ok contents) listing ->
  endswith f html_suffix = true ->
  read_pages findall listing acc = Ok pages ->
  dict_get pages f = Some (set_minus (to_set (findall contents)) f).
Proof.
  revert acc. induction listing as [|[name opened] t IH];
    intros acc Hnd Hin Hf H; [destruct Hin|].
  simpl in Hnd. inversion Hnd as [|? ? Hname Ht]; subst.
  destruct Hin as [Heq | Hin].
  - injection Heq as -> ->. simpl in H. rewrite Hf in H. simpl in H.
    rewrite (read_pages_other t _ pages f H Hname). apply setitem_get_same.
  - simpl in H. destruct (endswith name html_suffix); simpl in H.
    + destruct opened as [c0|e]; simpl in H; [|discriminate].
      now apply (IH _ Ht Hin Hf H).
    + now apply (IH _ Ht Hin Hf H).
Qed.

(** The second loop keeps the keys and filters every visited set of
    links by the keys. *)
Lemma keep_known_spec (names : list page) :
  forall pages : dict (list page),
    NoDup names -> incl names (keys pages) ->
    exists pages',
      keep_known names pages = Ok pages' /\
      keys pages' = keys pages /\
      forall f,
        dict_get pages' f =
        if mem f names
        then option_map (filter (fun link => mem link (keys pages)))
                        (dict_get pages f)
        else dict_get pages f.
Proof.
  induction names as [|name t IH]; intros pages Hnd Hincl.
  - exists pages. repeat split.
  - inversion Hnd as [|? ? Hname Ht]; subst.
    assert (Hin : In name (keys pages)) by (apply Hincl; now left).
    destruct (dict_get_some pages name Hin) as [links Hlinks].
    simpl keep_known. unfold getitem. rewrite Hlinks. simpl bind.
    set (pages2 := setitem pages name
                     (filter (fun link => mem link (keys pages)) links)).
    assert (Hk2 : keys pages2 = keys pages)
      by (unfold pages2; now rewrite setitem_keys_in).
    destruct (IH pages2 Ht) as [pages' [Hrun [Hk' Hget]]].
    { rewrite Hk2. intros q Hq. apply Hincl. now right. }
    exists pages'. split; [assumption|]. split; [congruence|].
    intro f. rewrite Hget, Hk2.
    change (mem f (name :: t)) with (String.eqb f name || mem f t)%bool.
    destruct (String.eqb f name) eqn:E.
    + apply String.eqb_eq in E. subst f.
      apply mem_false in Hname. rewrite Hname. simpl orb. cbv iota.
      unfold pages2. now rewrite setitem_get_same, Hlinks.
    + apply String.eqb_neq in E. simpl orb.
      unfold pages2. rewrite setitem_get_other by congruence. reflexivity.
Qed.

(** What [crawl] returns once the first loop has read the pages. *)
Lemma crawl_spec (listing : list (string * result string))
    (pages1 : dict (list page)) :
  read_pages findall listing [] = Ok pages1 ->
  exists pages,
    crawl findall listing = Ok pages /\
    keys pages = keys pages1 /\
    NoDup (keys pages) /\
    forall f,
      dict_get pages f =
      option_map (filter (fun link => mem link (keys pages)))
                 (dict_get pages1 f).
Proof.
  intro Hread.
  assert (Hnd : NoDup (keys pages1))
    by (apply (read_pages_NoDup listing [] pages1 Hread); constructor).
  destruct (keep_known_spec (keys pages1) pages1 Hnd (incl_refl _))
    as [pages [Hrun [Hk Hget]]].
  exists pages. split; [unfold crawl; rewrite Hread; exact Hrun|].
  split; [assumption|]. split; [now rewrite Hk|].
  intro f. rewrite Hget, Hk. destruct (mem f (keys pages1)) eqn:E;
    [reflexivity|].
  apply mem_false, dict_get_None in E. now rewrite E.
Qed.

(** [crawl] fails only where the first loop does. *)
Lemma crawl_Raise (listing : list (string * result string)) (e : exn) :
  crawl findall listing = Raise e ->
  exists name, In (name, Raise e) listing /\ endswith name html_suffix = true.
Proof.
  intro H. unfold crawl in H.
  destruct (read_pages findall listing []) as [pages1|e'] eqn:E.
  - destruct (crawl_spec listing pages1 E) as [pages [Hrun _]].
    unfold crawl in Hrun. rewrite E in Hrun. simpl in H, Hrun. congruence.
  - simpl in H. injection H as ->. now apply (read_pages_Raise listing []).
Qed.

(** The corpus [crawl] returns from a directory it can read. *)
Lemma crawl_corpus_facts (listing : list (string * result string)) :
  readable listing ->
  exists c : Corpus,
    crawl findall listing = Ok (entries c) /\
    closed c /\
    (forall f, In f (keys c) <->
               In f (map fst listing) /\ endswith f html_suffix = true) /\
    (forall f li, In (f, li) c -> ~ In f li).
Proof.
  intro Hreadable.
  destruct (read_pages_readable listing [] Hreadable) as [pages1 Hread].
  destruct (crawl_spec listing pages1 Hread) as [pages [Hrun [Hk [Hnd Hget]]]].
  assert (Hfrom : forall f li, In (f, li) pages ->
            exists li1, In (f, li1) pages1 /\
                        li = filter (fun link => mem link (keys pages)) li1).
  { intros f li Hin. apply (entry_dict_get pages f li Hnd) in Hin.
    rewrite Hget in Hin. destruct (dict_get pages1 f) as [li1|] eqn:E;
      [|discriminate].
    injection Hin as <-. exists li1. split; [now apply dict_get_In | reflexivity]. }
  assert (Hsets : forall f li1, In (f, li1) pages1 -> NoDup li1 /\ ~ In f li1).
  { apply (read_pages_entries (fun f li1 => NoDup li1 /\ ~ In f li1)
             listing [] pages1).
    - intros f contents. split.
      + apply NoDup_filter, to_set_NoDup.
      + rewrite set_minus_In. tauto.
    - assumption.
    - intros k v []. }
  assert (Hwf : well_formed pages = true).
  { unfold well_formed. apply andb_true_iff. split; [now apply nodupb_NoDup|].
    apply forallb_forall. intros [f li] Hin. simpl. apply nodupb_NoDup.
    destruct (Hfrom f li Hin) as [li1 [Hin1 ->]].
    apply NoDup_filter. now apply (Hsets f li1). }
  exists (mkCorpus pages Hwf). simpl. split; [assumption|]. split; [|split].
  - intros f li p Hin Hp. destruct (Hfrom f li Hin) as [li1 [_ ->]].
    apply filter_In in Hp. now apply mem_In.
  - intro f. rewrite Hk, (read_pages_keys listing [] pages1 f Hread).
    simpl. tauto.
  - intros f li Hin Hself. destruct (Hfrom f li Hin) as [li1 [Hin1 ->]].
    apply filter_In in Hself. now apply (Hsets f li1 Hin1).
Qed.
End CrawlFacts.

Lemma small_directory_readable : readable small_directory.
Proof.
  intros name opened [H | [H | [H | []]]] _; injection H as <- <-; eauto.
Qed.

(** X13: [crawl] on a directory in which every entry whose name ends in
    [.html] can be opened and read returns a corpus: its pages are
    exactly those entries, each page once and each link once; every link
    is a page of the corpus (the closure invariant) and no page links to
    itself.  Otherwise [crawl] raises, and whenever it raises, the
    exception is the one that opening or reading such an entry
    raises. *)
Theorem crawl_corpus (findall : string -> list string)
    (listing : list (string * result string)) :
  (readable listing ->
   exists c : Corpus,
     crawl findall listing = Ok (entries c) /\
     closed c /\
     (forall f, In f (keys c) <->
                In f (map fst listing) /\ endswith f html_suffix = true) /\
     (forall f li, In (f, li) c -> ~ In f li)) /\
  (~ readable listing -> exists e, crawl findall listing = Raise e) /\
  (forall e, crawl findall listing = Raise e ->
     exists name,
       In (name, Raise e) listing /\ endswith name html_suffix = true).
Proof.
  split; [apply crawl_corpus_facts|]. split; [|apply crawl_Raise].
  intro Hn. destruct (read_pages_unreadable findall listing [] Hn) as [e He].
  exists e. unfold crawl. now rewrite He.
Qed.

Lemma crawl_corpus_witness :
  (exists c : Corpus,
     crawl hrefs small_directory = Ok (entries c) /\
     closed c /\
     (forall f, In f (keys c) <->
                In f (map fst small_directory) /\
                endswith f html_suffix = true) /\
     (forall f li, In (f, li) c -> ~ In f li)) /\
  exists name,
    In (name, Raise OSError) directory_with_subdirectory /\
    endswith name html_suffix = true.
Proof.
  split.
  - apply (crawl_corpus hrefs small_directory). exact small_directory_readable.
  - apply (crawl_corpus hrefs directory_with_subdirectory). reflexivity.
Defined.

(** X14: in a directory whose entries have distinct names and whose
    entries ending in [.html] can all be read, the links [crawl] records
    for such an entry are exactly the [href] values found in its text
    that are not its own name and that name an entry of the directory
    ending in [.html]. *)
Theorem crawl_links (findall : string -> list string)
    (listing : list (string * result string)) (f : page) (contents : string) :
  NoDup (map fst listing) -> readable listing ->
  In (f, Ok contents) listing -> endswith f html_suffix = true ->
  exists pages li,
    crawl findall listing = Ok pages /\
    dict_get pages f = Some li /\
    forall l, In l li <->
      In l (findall contents) /\ l <> f /\
      In l (map fst listing) /\ endswith l html_suffix = true.
Proof.
  intros Hnd Hreadable Hin Hf.
  destruct (read_pages_readable findall listing [] Hreadable) as [pages1 Hread].
  destruct (crawl_spec findall listing pages1 Hread)
    as [pages [Hrun [Hk [_ Hget]]]].
  exists pages. eexists. split; [assumption|]. split.
  - rewrite Hget, (read_pages_get findall listing [] pages1 f contents)
      by assumption.
    reflexivity.
  - intro l. rewrite filter_In, set_minus_In, to_set_In, mem_In, Hk.
    rewrite (read_pages_keys findall listing [] pages1 l Hread). simpl. tauto.
Qed.

Lemma crawl_links_witness :
  exists pages li,
    crawl hrefs small_directory = Ok pages /\
    dict_get pages file_1 = Some li /\
    forall l, In l li <->
      In l [file_2; file_1; "notes.txt"%string; file_2] /\ l <> file_1 /\
      In l (map fst small_directory) /\ endswith l html_suffix = true.
Proof.
  apply (crawl_links hrefs small_directory file_1 "one"%string).
  - repeat constructor; simpl; intuition discriminate.
  - exact small_directory_readable.
  - now left.
  - reflexivity.
Defined.

(** ** crawl and main with the two estimators *)

Lemma iterate_pagerank_total (c : Corpus) (d : Q) (fuel : nat) (r : dict Q) :
  closed c -> entries c <> [] ->
  iterate_pagerank fuel c d = Some (Ok r) -> total r == 1.
Proof.
  intros Hcl Hne H. apply iterate_pagerank_run in H.
  destruct H as [st [Hrun <-]].
  now destruct (iterate_run_exit c d (fun r => total r == 1)
                  (fun r r' Hk Ht Hs => sweep_total_one c d r r' Hcl Hk Ht Hs)
                  (uniform_total c Hne) fuel st Hrun) as [_ [Ht _]].
Qed.

Lemma crawl_pages (findall : string -> list string)
    (listing : list (string * result string)) :
  readable listing ->
  exists c : Corpus,
    crawl findall listing = Ok (entries c) /\ closed c /\
    ((exists f, In f (map fst listing) /\ endswith f html_suffix = true) ->
     entries c <> []) /\
    ((forall f, In f (map fst listing) -> endswith f html_suffix = false) ->
     entries c = []).
Proof.
  intro Hreadable.
  destruct (crawl_corpus_facts findall listing Hreadable)
    as [c [Hrun [Hcl [Hk _]]]].
  exists c. split; [assumption|]. split; [assumption|]. split.
  - intros [f Hf] E. apply Hk in Hf. rewrite E in Hf. destruct Hf.
  - intro Hnone. destruct (keys c) as [|f t] eqn:E.
    + destruct (entries c); [reflexivity | discriminate].
    + destruct (proj1 (Hk f)) as [Hin Hhtml]; [now left|].
      rewrite (Hnone f Hin) in Hhtml. discriminate.
Qed.

Lemma no_page_readable (listing : list (string * result string)) :
  (forall f, In f (map fst listing) -> endswith f html_suffix = false) ->
  readable listing.
Proof.
  intros Hnone name opened Hin Hname.
  rewrite (Hnone name) in Hname; [discriminate|].
  change name with (fst (name, opened)). now apply in_map.
Qed.

(** X15: the corpus [crawl] returns meets what the estimators need.  If
    every entry of the directory whose name ends in [.html] can be read
    and there is such an entry, then for a damping factor in [0,1] and
    every [n >= 1] [sample_pagerank] on that corpus returns a table that
    sums to 1, and for a damping factor below 1 [iterate_pagerank]
    returns a table that sums to 1. *)
Theorem crawl_feeds_estimators (findall : string -> list string)
    (listing : list (string * result string)) (d : Q) (n : nat)
    (rnd : draws) :
  readable listing ->
  (exists f, In f (map fst listing) /\ endswith f html_suffix = true) ->
  0 <= d <= 1 -> (1 <= n)%nat ->
  exists corpus t,
    crawl findall listing = Ok corpus /\
    sample_pagerank corpus d n rnd = Ok t /\ total t == 1 /\
    (d < 1 ->
     exists fuel r,
       iterate_pagerank fuel corpus d = Some (Ok r) /\ total r == 1).
Proof.
  intros Hreadable Hhtml [Hd0 Hd1] Hn.
  destruct (crawl_pages findall listing Hreadable) as [c [Hrun [Hcl [Hne _]]]].
  specialize (Hne Hhtml).
  destruct (sample_pagerank_run c d n rnd Hcl Hne Hn)
    as [t [counts [pg0 [pg [k [_ [_ [Hs [_ [_ [Ht _]]]]]]]]]]].
  exists (entries c), t. split; [assumption|]. split; [assumption|].
  split; [assumption|]. intro Hd.
  destruct (iterate_run_terminates c d (conj Hd0 Hd)) as [fuel [st Hst]].
  assert (Hr : iterate_pagerank fuel c d = Some (Ok (PageRank_of st)))
    by (apply iterate_pagerank_run; eauto).
  exists fuel, (PageRank_of st). split; [assumption|].
  now apply (iterate_pagerank_total c d fuel).
Qed.

Lemma crawl_feeds_estimators_witness :
  exists corpus t,
    crawl hrefs small_directory = Ok corpus /\
    sample_pagerank corpus (17 # 20) 3 fixed_draws = Ok t /\ total t == 1 /\
    (17 # 20 < 1 ->
     exists fuel r,
       iterate_pagerank fuel corpus (17 # 20) = Some (Ok r) /\ total r == 1).
Proof.
  apply (crawl_feeds_estimators hrefs small_directory (17 # 20) 3 fixed_draws).
  - exact small_directory_readable.
  - exists file_1. split; [now left | reflexivity].
  - split; discriminate.
  - lia.
Defined.

(** ** main *)

Lemma samples_positive : (1 <= SAMPLES)%nat.
Proof.
  unfold SAMPLES. lia.
Qed.

Lemma damping_in_range : 0 <= DAMPING < 1.
Proof.
  split; [discriminate | reflexivity].
Qed.

(** X16: [main] stops before anything is printed when it is not given
    exactly one argument (it exits with the usage message, whatever the
    file system holds) and when no entry of the directory has a name
    ending in [.html] ([random.choice] raises [IndexError] on the empty
    corpus). *)
Theorem main_fails_early (fuel : nat) (argv : list string)
    (listdir : string -> list (string * result string))
    (findall : string -> list string) (rnd : draws) :
  (List.length argv <> 2%nat ->
   main fuel argv listdir findall rnd = ([], Exited usage)) /\
  (forall prog directory,
     argv = [prog; directory] ->
     (forall f, In f (map fst (listdir directory)) ->
                endswith f html_suffix = false) ->
     main fuel argv listdir findall rnd = ([], Raised IndexError)).
Proof.
  split.
  - intro Hlen. destruct argv as [|a0 [|a1 [|a2 t]]]; try reflexivity.
    simpl in Hlen. congruence.
  - intros prog directory -> Hnone. unfold main.
    destruct (crawl_pages findall (listdir directory)
                (no_page_readable _ Hnone))
      as [c [Hrun [_ [_ Hempty]]]].
    rewrite Hrun, (Hempty Hnone). reflexivity.
Qed.

Lemma main_fails_early_witness :
  main 5 [html_suffix; html_suffix] (fun _ => [(usage, Ok usage)])
    hrefs fixed_draws
  = ([], Raised IndexError).
Proof.
  apply (main_fails_early 5 [html_suffix; html_suffix]
           (fun _ => [(usage, Ok usage)]) hrefs fixed_draws) with
    (prog := html_suffix) (directory := html_suffix).
  - reflexivity.
  - intros f [<- | []]. reflexivity.
Defined.

Lemma sorted_pages (ranks : dict Q) :
  Permutation (sorted ranks) (keys ranks) /\
  Sorted (fun x y => String.leb x y = true) (sorted ranks).
Proof.
  unfold sorted. split.
  - apply Permutation_sym, PageSort.Permuted_sort.
  - apply PageSort.Sorted_sort.
Qed.

(** X17: [main] on a directory in which every entry whose name ends in
    [.html] can be opened and read, and which has such an entry: the
    sampling runs with damping 0.85 and 10000 samples and does not fail;
    its header and one rank line per page, in the order of the page
    names, are printed first, and the ranks sum to 1.  No run raises or
    exits; once enough sweeps are allowed the run finishes with the
    iteration header and one rank line per page, in the same order,
    whose ranks sum to 1.  When an entry whose name ends in [.html]
    cannot be read, [main] raises before anything is printed. *)
Theorem main_prints_both_tables (prog directory : string)
    (listdir : string -> list (string * result string))
    (findall : string -> list string) (rnd : draws) :
  (readable (listdir directory) ->
   (exists f, In f (map fst (listdir directory)) /\
              endswith f html_suffix = true) ->
   exists corpus sampled,
     crawl findall (listdir directory) = Ok corpus /\
     sample_pagerank corpus DAMPING SAMPLES rnd = Ok sampled /\
     total sampled == 1 /\
     Permutation (sorted sampled) (keys corpus) /\
     Sorted (fun x y => String.leb x y = true) (sorted sampled) /\
     (forall fuel,
        main fuel [prog; directory] listdir findall rnd =
          (sampling_header :: print_ranks sampled, Sweeping) \/
        exists iterated,
          iterate_pagerank fuel corpus DAMPING = Some (Ok iterated) /\
          total iterated == 1 /\
          sorted iterated = sorted sampled /\
          main fuel [prog; directory] listdir findall rnd =
            ((sampling_header :: print_ranks sampled) ++
             iteration_header :: print_ranks iterated, Finished)) /\
     (exists fuel,
        snd (main fuel [prog; directory] listdir findall rnd) = Finished)) /\
  (~ readable (listdir directory) ->
   exists e, forall fuel,
     main fuel [prog; directory] listdir findall rnd = ([], Raised e)).
Proof.
  split.
  - intros Hreadable Hhtml.
    destruct (crawl_pages findall (listdir directory) Hreadable)
      as [c [Hrun [Hcl [Hne _]]]].
    specialize (Hne Hhtml).
    destruct (sample_pagerank_run c DAMPING SAMPLES rnd Hcl Hne samples_positive)
      as [t [counts [pg0 [pg [k [_ [_ [Hs [Hkt [_ [Ht _]]]]]]]]]]].
    destruct (sorted_pages t) as [Hperm Hsorted].
    exists (entries c), t. split; [assumption|]. split; [assumption|].
    split; [assumption|]. split; [now rewrite <- Hkt|]. split; [assumption|].
    assert (Hmain : forall fuel,
              main fuel [prog; directory] listdir findall rnd =
              match iterate_pagerank fuel c DAMPING with
              | None => (sampling_header :: print_ranks t, Sweeping)
              | Some (Raise e) => (sampling_header :: print_ranks t, Raised e)
              | Some (Ok ranks) =>
                  ((sampling_header :: print_ranks t) ++
                   iteration_header :: print_ranks ranks, Finished)
              end)
      by (intro fuel; unfold main; now rewrite Hrun, Hs).
    split.
    + intro fuel. rewrite Hmain.
      pose proof (iterate_pagerank_no_exception c DAMPING fuel) as Hno.
      destruct (iterate_pagerank fuel c DAMPING) as [[r|e]|] eqn:E;
        [right | exfalso; now apply (Hno e) | now left].
      exists r. split; [reflexivity|].
      split; [now apply (iterate_pagerank_total c DAMPING fuel)|].
      split; [|reflexivity].
      apply iterate_pagerank_run in E. destruct E as [st [Hrun' <-]].
      destruct (iterate_run_exit c DAMPING (fun _ => True)
                  (fun _ _ _ _ _ => I) I fuel st Hrun') as [Hk _].
      unfold sorted. now rewrite Hk, Hkt.
    + destruct (iterate_run_terminates c DAMPING damping_in_range)
        as [fuel [st Hst]].
      exists fuel. rewrite Hmain.
      assert (Hr : iterate_pagerank fuel c DAMPING = Some (Ok (PageRank_of st)))
        by (apply iterate_pagerank_run; eauto).
      now rewrite Hr.
  - intro Hn.
    destruct (read_pages_unreadable findall (listdir directory) [] Hn)
      as [e He].
    exists e. intro fuel. unfold main, crawl. now rewrite He.
Qed.

Lemma main_prints_both_tables_witness :
  (exists fuel,
     snd (main fuel [usage; usage] (fun _ => small_directory) hrefs fixed_draws)
     = Finished) /\
  exists e, forall fuel,
    main fuel [usage; usage] (fun _ => directory_with_subdirectory)
      hrefs fixed_draws = ([], Raised e).
Proof.
  split.
  - destruct (main_prints_both_tables usage usage (fun _ => small_directory)
                hrefs fixed_draws) as [H _].
    destruct H as [corpus [sampled [_ [_ [_ [_ [_ [_ H]]]]]]]].
    + exact small_directory_readable.
    + exists file_1. split; [now left | reflexivity].
    + exact H.
  - apply (main_prints_both_tables usage usage
             (fun _ => directory_with_subdirectory) hrefs fixed_draws).
    intro Hr.
    destruct (Hr "d.html"%string (Raise OSError)) as [contents Hc];
      [right; now left | reflexivity | discriminate].
Defined.
